(** * Subsampling layers of the chrispnet conformer prenet

    Shallow embedding of [src/chrispnet/modules/encoder/prenet/subsampling.py]:
    [StackingSubsampling], [ConvSubsampling] and [calc_length].

    Modelling choices.
    - Tensor sizes and integer tensors are [Z].  Python's [%] and [//] on a
      positive divisor are [Z.modulo] and [Z.div] (both floor).
    - Floating-point values are IEEE-754 binary values: a finite value is a
      rational [Fin q], besides the two infinities and NaN (zeros are not
      signed; the code divides only by a stride, never by a zero).  Every
      operation rounds its exact result to nearest, ties to even, with the
      precision and exponent range of the format ([round32]: binary32, the
      [torch.float] of [calc_length]; [round64]: binary64, Python's float);
      a result of magnitude [2^emax] or more after rounding is an infinity.
    - [calc_length] follows PyTorch on CPU: [lengths.to(dtype=torch.float)]
      rounds an int64 entry to float32; the Python ints [add_pad] and
      [stride] are rounded to float32 by [+] and [torch.div] (true
      division); [torch.floor] and [torch.ceil] are exact.  The final
      [.to(dtype=torch.int)] truncates a float32 toward zero when the result
      fits in int32, and gives [INT_MIN] otherwise (and for NaN and the
      infinities): the value the x86 conversion instruction returns for a
      conversion C++ leaves undefined.  An int64 tensor cast to int32 wraps
      modulo [2^32].
    - Length vectors passed to [forward] are int64 tensors ([list Z]); the
      [in_length] of [__init__] is [torch.tensor(feat_in, dtype=torch.float)],
      the Python int rounded to a double and then to float32.
    - [math.log] is a parameter [math_log] of [ConvSubsampling.__init__]: the
      double CPython's [math.log] returns for a positive integer.
      [int(math.log(f, 2))] is the double quotient [math_log f / math_log 2],
      truncated toward zero; [math.log] raises on [f <= 0], the division on
      a zero denominator, and [int] on an infinite or NaN quotient.
    - The numeric content of the learned layers (weights of the convolutions
      and of the linear projections) is a parameter of the forward passes;
      sizes are computed exactly as PyTorch computes them. *)

From Stdlib Require Import ZArith QArith Qround Qpower Qabs Qreduction Lqa List String Lia.
Import ListNotations.

Open Scope Z_scope.

(** ** IEEE-754 binary arithmetic *)

Inductive fvalue : Type :=
| Fin (q : Q)
| Inf (negative : bool)
| NaN.

Definition pow2 (e : Z) : Q := Qpower (2 # 1) e.

(** [floor(log2 q)] of a positive rational. *)
Definition qlog2 (q : Q) : Z :=
  let e := Z.log2 (Qnum q) - Z.log2 (Zpos (Qden q)) in
  if Qle_bool (pow2 e) q then e else e - 1.

Definition round_half_even (x : Q) : Z :=
  let f := Qfloor x in
  match (x - inject_Z f ?= 1 # 2)%Q with
  | Lt => f
  | Gt => f + 1
  | Eq => if Z.even f then f else f + 1
  end.

(** Rounding of a positive magnitude to [prec] significant bits, the
    exponent not below [emin] (subnormals); [None] on overflow. *)
Definition round_abs (prec emin emax : Z) (a : Q) : option Q :=
  let e := Z.max (qlog2 a - (prec - 1)) emin in
  let v := (inject_Z (round_half_even (a / pow2 e)) * pow2 e)%Q in
  if Qle_bool (pow2 emax) v then None else Some v.

Definition round_binary (prec emin emax : Z) (q : Q) : fvalue :=
  if Qeq_bool q 0 then Fin 0
  else match round_abs prec emin emax (Qabs q) with
       | None => Inf (negb (Qle_bool 0 q))
       | Some v => Fin (Qred (if Qle_bool 0 q then v else - v))
       end.

Definition round32 : Q -> fvalue := round_binary 24 (-149) 128.
Definition round64 : Q -> fvalue := round_binary 53 (-1074) 1024.

Definition fadd (rnd : Q -> fvalue) (x y : fvalue) : fvalue :=
  match x, y with
  | Fin a, Fin b => rnd (a + b)%Q
  | Inf a, Inf b => if Bool.eqb a b then Inf a else NaN
  | Inf a, Fin _ | Fin _, Inf a => Inf a
  | _, _ => NaN
  end.

Definition fdiv (rnd : Q -> fvalue) (x y : fvalue) : fvalue :=
  match x, y with
  | Fin a, Fin b =>
      if Qeq_bool b 0 then (if Qeq_bool a 0 then NaN else Inf (negb (Qle_bool 0 a)))
      else rnd (a / b)%Q
  | Inf a, Fin b => Inf (xorb a (negb (Qle_bool 0 b)))
  | Fin _, Inf _ => Fin 0
  | _, _ => NaN
  end.

Definition ffloor (x : fvalue) : fvalue :=
  match x with Fin a => Fin (inject_Z (Qfloor a)) | _ => x end.

Definition fceil (x : fvalue) : fvalue :=
  match x with Fin a => Fin (inject_Z (Qceiling a)) | _ => x end.

(** An integer rounded to float32. *)
Definition f32_of_Z (z : Z) : fvalue := round32 (inject_Z z).

(** Truncation toward zero. *)
Definition Qtrunc (q : Q) : Z := if Qle_bool 0 q then Qfloor q else Qceiling q.

Definition in_int32 (z : Z) : bool := (- 2 ^ 31 <=? z) && (z <? 2 ^ 31).

(** float32 to int32. *)
Definition float_to_int32 (x : fvalue) : Z :=
  match x with
  | Fin a => if in_int32 (Qtrunc a) then Qtrunc a else - 2 ^ 31
  | _ => - 2 ^ 31
  end.

(** int64 to int32. *)
Definition int64_to_int32 (z : Z) : Z := (z + 2 ^ 31) mod 2 ^ 32 - 2 ^ 31.

(** Order on float values; NaN is in no relation. *)
Definition fle (x y : fvalue) : Prop :=
  match x, y with
  | Fin a, Fin b => (a <= b)%Q
  | Inf true, (Fin _ | Inf _) => True
  | Fin _, Inf false => True
  | Inf false, Inf false => True
  | _, _ => False
  end.

(** An option-valued magnitude order: [None] (overflow) is above all. *)
Definition ole (x y : option Q) : Prop :=
  match x, y with
  | Some a, Some b => (a <= b)%Q
  | _, None => True
  | None, Some _ => False
  end.

(** ** PyTorch size semantics of the layers used by the prenet *)
Module Torch.

(** Layer descriptors appended to [layers] in [ConvSubsampling.__init__]. *)
Inductive layer : Type :=
| Conv2d (in_channels out_channels kernel_size stride padding : Z)
| Activation
| MaxPool2d (kernel_size stride padding : Z) (ceil_mode : bool).

(** Size of a 4-d tensor: (batch, channels, height, width). *)
Definition shape4 : Type := (Z * Z * Z * Z)%type.

(** Output size of [Conv2d] along one axis (dilation 1). *)
Definition conv_out_size (n k s p : Z) : Z := (n + 2 * p - k) / s + 1.

(** [pooling_output_shape] of ATen (dilation 1, symmetric padding),
    [Z.div] being ATen's [div_rtn]. *)
Definition pooling_output_shape (n k p s : Z) (ceil_mode : bool) : Z :=
  let o := (n + 2 * p - (k - 1) - 1 + (if ceil_mode then s - 1 else 0)) / s + 1 in
  if ceil_mode && ((o - 1) * s >=? n + p) then o - 1 else o.

(** Effect of one layer on the size of its input; [None] is a runtime
    error of PyTorch (channel mismatch, kernel larger than the padded
    input, pooling output smaller than 1). *)
Definition apply_layer (l : layer) (sh : shape4) : option shape4 :=
  let '(b, c, h, w) := sh in
  match l with
  | Conv2d ic oc k s p =>
      if negb (c =? ic) then None
      else if (h + 2 * p <? k) || (w + 2 * p <? k) then None
      else Some (b, oc, conv_out_size h k s p, conv_out_size w k s p)
  | Activation => Some sh
  | MaxPool2d k s p cm =>
      if k / 2 <? p then None
      else
        let oh := pooling_output_shape h k p s cm in
        let ow := pooling_output_shape w k p s cm in
        if (oh <? 1) || (ow <? 1) then None else Some (b, c, oh, ow)
  end.

(** [torch.nn.Sequential] over [layers], applied to a tensor of size [sh]. *)
Fixpoint apply_layers (ls : list layer) (sh : shape4) : option shape4 :=
  match ls with
  | [] => Some sh
  | l :: ls' =>
      match apply_layer l sh with
      | Some sh' => apply_layers ls' sh'
      | None => None
      end
  end.

End Torch.

Import Torch.

(** A 3-d tensor (batch, time, features): its size and its entries,
    item by item, frame by frame. *)
Record tensor3 : Type := mk_tensor3 {
  dims : Z * Z * Z;
  data : list (list (list Q))
}.

Definition time_of (x : tensor3) : Z := let '(_, t, _) := dims x in t.

(** ** [calc_length] *)

(** A length tensor: int64 or float32 entries. *)
Inductive ltensor : Type :=
| Int64 (l : list Z)
| Float32 (l : list fvalue).

(** [.to(dtype=torch.float)]. *)
Definition to_float (t : ltensor) : list fvalue :=
  match t with Int64 l => map f32_of_Z l | Float32 l => l end.

(** [.to(dtype=torch.int)]. *)
Definition to_int (t : ltensor) : list Z :=
  match t with Int64 l => map int64_to_int32 l | Float32 l => map float_to_int32 l end.

(** One iteration of the loop body of [calc_length] on one entry:
    [torch.div(l + add_pad, stride) + one], then [ceil] or [floor]. *)
Definition calc_step (add_pad stride : Z) (ceil_mode : bool) (l : fvalue) : fvalue :=
  let l' := fadd round32 (fdiv round32 (fadd round32 l (f32_of_Z add_pad)) (f32_of_Z stride))
                 (Fin 1) in
  if ceil_mode then fceil l' else ffloor l'.

(** [for i in range(repeat_num)]. *)
Fixpoint calc_loop (add_pad stride : Z) (ceil_mode : bool) (i : nat) (lengths : ltensor)
    : ltensor :=
  match i with
  | O => lengths
  | S i' => calc_loop add_pad stride ceil_mode i'
              (Float32 (map (calc_step add_pad stride ceil_mode) (to_float lengths)))
  end.

(** [calc_length] on a tensor of either dtype. *)
Definition calc_length_t (lengths : ltensor) (padding kernel_size stride : Z)
    (ceil_mode : bool) (repeat_num : Z) : list Z :=
  let add_pad := padding * 2 - kernel_size in
  to_int (calc_loop add_pad stride ceil_mode (Z.to_nat repeat_num) lengths).

(** [calc_length] on an int64 length vector. *)
Definition calc_length (lengths : list Z) (padding kernel_size stride : Z)
    (ceil_mode : bool) (repeat_num : Z) : list Z :=
  calc_length_t (Int64 lengths) padding kernel_size stride ceil_mode repeat_num.

(** ** [ConvSubsampling] *)
Module ConvSub.

(** The attributes set by [__init__]. *)
Record conv_subsampling : Type := mk_conv {
  _subsampling : string;
  _sampling_num : Z;
  _padding : Z;
  _stride : Z;
  _kernel_size : Z;
  _ceil_mode : bool;
  conv : list layer;
  out_in_features : Z;
  out_out_features : Z
}.

(** The [for i in range(self._sampling_num)] loop of the "vggnet" branch;
    [in_channels] becomes [conv_channels] after the first stage. *)
Fixpoint vggnet_layers (n : nat) (in_channels conv_channels : Z)
    (kernel_size stride padding : Z) (ceil_mode : bool) : list layer :=
  match n with
  | O => []
  | S n' =>
      Conv2d in_channels conv_channels 3 1 1 :: Activation ::
      Conv2d conv_channels conv_channels 3 1 1 :: Activation ::
      MaxPool2d kernel_size stride padding ceil_mode ::
      vggnet_layers n' conv_channels conv_channels kernel_size stride padding ceil_mode
  end.

(** The loop of the "striding" branch. *)
Fixpoint striding_layers (n : nat) (in_channels conv_channels : Z)
    (kernel_size stride padding : Z) : list layer :=
  match n with
  | O => []
  | S n' =>
      Conv2d in_channels conv_channels kernel_size stride padding :: Activation ::
      striding_layers n' conv_channels conv_channels kernel_size stride padding
  end.

Section Init.
(** [math.log] of a positive integer, as a double. *)
Variable math_log : Z -> Q.

(** [int(math.log(f, 2))]; [None] is a raised exception. *)
Definition int_log2 (f : Z) : option Z :=
  if f <=? 0 then None                                   (* math domain error *)
  else
    let den := math_log 2 in
    if Qeq_bool den 0 then None                          (* ZeroDivisionError *)
    else match round64 (math_log f / den) with
         | Fin q => Some (Qtrunc q)
         | _ => None                                     (* int() of inf or nan *)
         end.

(** [in_length = torch.tensor(feat_in, dtype=torch.float)], its
    [calc_length], and [self.out = torch.nn.Linear(conv_channels *
    int(out_length), feat_out)]; a negative size is refused by the weight
    allocation. *)
Definition finish (subsampling : string) (n padding stride kernel_size : Z)
    (ceil_mode : bool) (layers : list layer) (feat_in feat_out conv_channels : Z)
    : option conv_subsampling :=
  match round64 (inject_Z feat_in) with
  | Fin d =>
      let in_length := Float32 [round32 d] in
      let out_length :=
        hd 0 (calc_length_t in_length padding kernel_size stride ceil_mode n) in
      let in_features := conv_channels * out_length in
      if (in_features <? 0) || (feat_out <? 0) then None
      else Some (mk_conv subsampling n padding stride kernel_size ceil_mode layers
                   in_features feat_out)
  | _ => None                                            (* OverflowError *)
  end.

(** [ConvSubsampling.__init__]; [None] is a raised exception.  The first
    [Conv2d] of a non-empty stack refuses a negative [conv_channels]. *)
Definition init (subsampling : string) (subsampling_factor feat_in feat_out
    conv_channels : Z) : option conv_subsampling :=
  if negb (subsampling_factor mod 2 =? 0) then None          (* ValueError *)
  else
    match int_log2 subsampling_factor with
    | None => None
    | Some n =>
        if String.eqb subsampling "vggnet" then
          if (0 <? n) && (conv_channels <? 0) then None
          else finish subsampling n 0 2 2 true
                 (vggnet_layers (Z.to_nat n) 1 conv_channels 2 2 0 true)
                 feat_in feat_out conv_channels
        else if String.eqb subsampling "striding" then
          if (0 <? n) && (conv_channels <? 0) then None
          else finish subsampling n 1 2 3 false
                 (striding_layers (Z.to_nat n) 1 conv_channels 3 2 1)
                 feat_in feat_out conv_channels
        else None                                           (* ValueError *)
    end.
End Init.

Section Forward.
(** Numeric action of [self.conv] followed by [transpose(1, 2).reshape],
    and of [self.out] on one frame: the learned weights. *)
Variable conv_values : list (list (list Q)) -> list (list (list Q)).
Variable out_values : list Q -> list Q.

(** Length update of [forward]. *)
Definition forward_lengths (m : conv_subsampling) (lengths : list Z) : list Z :=
  calc_length lengths (_padding m) (_kernel_size m) (_stride m) (_ceil_mode m)
    (_sampling_num m).

(** [ConvSubsampling.forward]. *)
Definition forward (m : conv_subsampling) (x : tensor3) (lengths : list Z)
    : option (tensor3 * list Z) :=
  let lengths' := forward_lengths m lengths in
  let '(b, t, d) := dims x in
  match apply_layers (conv m) (b, 1, t, d) with     (* unsqueeze(1); conv *)
  | None => None
  | Some (b', c, t', f) =>
      if b' * t' =? 0 then None                      (* reshape(b, t, -1) *)
      else if negb (c * f =? out_in_features m) then None   (* self.out *)
      else Some (mk_tensor3 (b', t', out_out_features m)
                   (map (map out_values) (conv_values (data x))), lengths')
  end.
End Forward.

End ConvSub.
(** ** [StackingSubsampling] *)
Module Stacking.

Record stacking_subsampling : Type := mk_stacking {
  subsampling_factor : Z;
  proj_in_features : Z;
  proj_out_features : Z
}.

(** [StackingSubsampling.__init__]. *)
Definition init (subsampling_factor feat_in feat_out : Z) : option stacking_subsampling :=
  if (subsampling_factor * feat_in <? 0) || (feat_out <? 0) then None
  else Some (mk_stacking subsampling_factor (subsampling_factor * feat_in) feat_out).

Definition pad_size (F t : Z) : Z := F - t mod F.

(** [torch.nn.functional.pad(x, (0, 0, 0, pad_size))]: [pad_size] zero
    frames appended to the time axis of every item. *)
Definition pad_time (pad h : Z) (x : list (list (list Q))) : list (list (list Q)) :=
  map (fun item => item ++ repeat (repeat 0%Q (Z.to_nat h)) (Z.to_nat pad)) x.

(** [torch.reshape(x, (b, t // F, h * F))] on one item: [n] groups of [F]
    consecutive frames, each concatenated into one frame. *)
Fixpoint group_frames (F n : nat) (frames : list (list Q)) : list (list Q) :=
  match n with
  | O => []
  | S n' => List.concat (firstn F frames) :: group_frames F n' (skipn F frames)
  end.

Section Forward.
(** Numeric action of [self.proj_out] on one frame. *)
Variable proj_values : list Q -> list Q.

(** [StackingSubsampling.forward]; [None] is a raised exception. *)
Definition forward (m : stacking_subsampling) (x : tensor3) (lengths : list Z)
    : option (tensor3 * list Z) :=
  let F := subsampling_factor m in
  let '(b, t, h) := dims x in
  if F =? 0 then None                               (* ZeroDivisionError *)
  else
    let pad := pad_size F t in
    let t2 := t + pad in
    if (t2 <? 0) || (t2 / F <? 0) || (h * F <? 0) then None
    else if negb (h * F =? proj_in_features m) then None
    else
      let xs := pad_time pad h (data x) in
      let ys := map (group_frames (Z.to_nat F) (Z.to_nat (t2 / F))) xs in
      Some (mk_tensor3 (b, t2 / F, proj_out_features m) (map (map proj_values) ys),
            map (fun l => (l + pad) / F) lengths).
End Forward.

End Stacking.

(** ** The length formula as the specification words it (section 4.3)

    [length <- round_mode((length + 2*padding - kernel) / stride + 1)],
    [repeat_count] times in floating point (float32, the [torch.float] of
    the code), then a cast to integer. *)
Definition round_mode (ceil_mode : bool) (x : fvalue) : fvalue :=
  if ceil_mode then fceil x else ffloor x.

Definition spec_length_formula (padding kernel_size stride : Z) (ceil_mode : bool)
    (x : fvalue) : fvalue :=
  round_mode ceil_mode
    (fadd round32
       (fdiv round32 (fadd round32 x (f32_of_Z (2 * padding - kernel_size))) (f32_of_Z stride))
       (Fin 1)).

(** A float cast to a (mathematical) integer, by truncation; [None] for an
    infinity or NaN. *)
Definition float_to_integer (x : fvalue) : option Z :=
  match x with Fin q => Some (Qtrunc q) | _ => None end.

Definition spec_calc_length (lengths : list Z) (padding kernel_size stride : Z)
    (ceil_mode : bool) (repeat_count : Z) : list (option Z) :=
  map (fun l => float_to_integer
                  (Nat.iter (Z.to_nat repeat_count)
                     (spec_length_formula padding kernel_size stride ceil_mode)
                     (f32_of_Z l)))
      lengths.

(** The entries of a length tensor are finite and their truncations fit
    in int32 (so that [.to(dtype=torch.int)] is exact). *)
Definition fits_int32 (t : ltensor) : bool :=
  match t with
  | Int64 l => forallb in_int32 l
  | Float32 l =>
      forallb (fun x => match x with Fin q => in_int32 (Qtrunc q) | _ => false end) l
  end.

(** An integer as a float value. *)
Definition fin_Z (l : Z) : fvalue := Fin (inject_Z l).

(** Integer form of one iteration of [calc_length] (positive stride):
    floor and ceiling of [(l + add_pad + stride) / stride]. *)
Definition zstep (add_pad stride : Z) (ceil_mode : bool) (l : Z) : Z :=
  if ceil_mode then - ((- (l + add_pad + stride)) / stride)
  else (l + add_pad + stride) / stride.

Fixpoint zloop (add_pad stride : Z) (ceil_mode : bool) (i : nat) (l : Z) : Z :=
  match i with
  | O => l
  | S i' => zloop add_pad stride ceil_mode i' (zstep add_pad stride ceil_mode l)
  end.

(** [padding * 2 - kernel_size] of a built [ConvSubsampling]. *)
Definition conv_add_pad (m : ConvSub.conv_subsampling) : Z :=
  ConvSub._padding m * 2 - ConvSub._kernel_size m.

(** [2 ^ len(range(self._sampling_num))]: the reduction factor of the stack
    of a built [ConvSubsampling]. *)
Definition conv_factor (m : ConvSub.conv_subsampling) : Z :=
  2 ^ Z.of_nat (Z.to_nat (ConvSub._sampling_num m)).

(** Input tensor of the [__main__] scenario (entries left out). *)
Definition main_spect : tensor3 := mk_tensor3 (4, 1600, 80) [].

(** Ceiling division [ceil(a / b)] on integers, written as the code's
    [torch.ceil] of an exact quotient. *)
Definition ceil_div (a b : Z) : Z := - ((- a) / b).

(** The doubles CPython's [math.log] returns for the factors used in the
    examples below ([math.log(2) = 0.6931471805599453], ...); other
    arguments are not used. *)
Definition sample_log (z : Z) : Q :=
  match z with
  | 2 => 6243314768165359 # 9007199254740992
  | 4 => 6243314768165359 # 4503599627370496
  | 6 => 4034683638976513 # 2251799813685248
  | 8 => 4682486076124019 # 2251799813685248
  | 12 => 5595512331017853 # 2251799813685248
  | 16 => 6243314768165359 # 2251799813685248
  | _ => 0
  end.

(** * Properties *)

(** ** Floating-point lemmas *)

Lemma pow2_pos (e : Z) : (0 < pow2 e)%Q.
Proof. apply Qpower_0_lt. reflexivity. Qed.

Lemma pow2_add (a b : Z) : (pow2 (a + b) == pow2 a * pow2 b)%Q.
Proof. unfold pow2. apply Qpower_plus. discriminate. Qed.

Lemma pow2_le (a b : Z) : a <= b -> (pow2 a <= pow2 b)%Q.
Proof. intros H. apply Qpower_le_compat_l; [exact H | discriminate]. Qed.

Lemma pow2_lt (a b : Z) : a < b -> (pow2 a < pow2 b)%Q.
Proof. intros H. apply Qpower_lt_compat_l; [exact H | reflexivity]. Qed.

Lemma pow2_le_inv (a b : Z) : (pow2 a <= pow2 b)%Q -> a <= b.
Proof. intros H. apply (Qpower_le_compat_l_inv (2#1)); [exact H | reflexivity]. Qed.

Lemma pow2_Z (e : Z) : 0 <= e -> (pow2 e == inject_Z (2 ^ e))%Q.
Proof. intros H. unfold pow2. rewrite (Zpower_Qpower 2 e H). reflexivity. Qed.

Lemma Qle_num_den (x q : Q) :
  (x <= q)%Q <-> (x * inject_Z (Zpos (Qden q)) <= inject_Z (Qnum q))%Q.
Proof.
  destruct x as [a b], q as [n d]. unfold Qle, Qmult, inject_Z; simpl.
  rewrite !Pos2Z.inj_mul. split; intros; nia.
Qed.

Lemma Qlt_num_den (q x : Q) :
  (q < x)%Q <-> (inject_Z (Qnum q) < x * inject_Z (Zpos (Qden q)))%Q.
Proof.
  destruct x as [a b], q as [n d]. unfold Qlt, Qmult, inject_Z; simpl.
  rewrite !Pos2Z.inj_mul. split; intros; nia.
Qed.

Lemma qlog2_spec (q : Q) :
  (0 < q)%Q -> (pow2 (qlog2 q) <= q < pow2 (qlog2 q + 1))%Q.
Proof.
  intros Hq.
  assert (Hn : 0 < Qnum q) by (destruct q as [n d]; unfold Qlt in Hq; cbn in Hq |- *; lia).
  set (n := Qnum q) in *. set (d := Zpos (Qden q)).
  destruct (Z.log2_spec n Hn) as [Ln1 Ln2].
  destruct (Z.log2_spec d ltac:(unfold d; lia)) as [Ld1 Ld2].
  set (ln := Z.log2 n) in *. set (ld := Z.log2 d) in *.
  pose proof (Z.log2_nonneg n). pose proof (Z.log2_nonneg d).
  assert (Up : (q < pow2 (ln - ld + 1))%Q).
  { apply Qlt_num_den. fold n d.
    apply Qlt_le_trans with (inject_Z (2 ^ Z.succ ln)).
    - rewrite <- Zlt_Qlt. exact Ln2.
    - rewrite <- pow2_Z by lia.
      apply Qle_trans with (pow2 (ln - ld + 1) * pow2 ld)%Q.
      + rewrite <- pow2_add. apply pow2_le. lia.
      + apply Qmult_le_l; [apply pow2_pos|]. rewrite pow2_Z by lia.
        rewrite <- Zle_Qle. exact Ld1. }
  assert (Lo : (pow2 (ln - ld - 1) <= q)%Q).
  { apply Qle_num_den. fold n d.
    apply Qle_trans with (inject_Z (2 ^ ln)); [|rewrite <- Zle_Qle; exact Ln1].
    rewrite <- pow2_Z by lia.
    apply Qle_trans with (pow2 (ln - ld - 1) * pow2 (Z.succ ld))%Q.
    + apply Qmult_le_l; [apply pow2_pos|]. rewrite pow2_Z by lia.
      rewrite <- Zle_Qle. lia.
    + rewrite <- pow2_add. apply pow2_le. lia. }
  unfold qlog2. fold n d ln ld.
  destruct (Qle_bool (pow2 (ln - ld)) q) eqn:E.
  - apply Qle_bool_iff in E. split; [exact E|exact Up].
  - assert (E' : (q < pow2 (ln - ld))%Q).
    { apply Qnot_le_lt. intros C. apply Qle_bool_iff in C. congruence. }
    split; [exact Lo|]. replace (ln - ld - 1 + 1) with (ln - ld) by ring. exact E'.
Qed.

Lemma qlog2_unique (q : Q) (k : Z) :
  (pow2 k <= q < pow2 (k + 1))%Q -> qlog2 q = k.
Proof.
  intros [H1 H2].
  assert (Hq : (0 < q)%Q) by (apply Qlt_le_trans with (pow2 k); [apply pow2_pos|exact H1]).
  destruct (qlog2_spec q Hq) as [S1 S2].
  destruct (Z.lt_trichotomy (qlog2 q) k) as [L|[L|L]]; [|exact L|].
  - exfalso. assert (pow2 (qlog2 q + 1) <= pow2 k)%Q by (apply pow2_le; lia).
    apply (Qlt_irrefl q). apply Qlt_le_trans with (pow2 (qlog2 q + 1)); [exact S2|].
    apply Qle_trans with (pow2 k); assumption.
  - exfalso. assert (pow2 (k + 1) <= pow2 (qlog2 q))%Q by (apply pow2_le; lia).
    apply (Qlt_irrefl q). apply Qlt_le_trans with (pow2 (k + 1)); [exact H2|].
    apply Qle_trans with (pow2 (qlog2 q)); assumption.
Qed.

Lemma qlog2_Qeq (q1 q2 : Q) : (0 < q1)%Q -> (q1 == q2)%Q -> qlog2 q1 = qlog2 q2.
Proof.
  intros H E. symmetry. apply qlog2_unique. rewrite <- E. now apply qlog2_spec.
Qed.

Lemma qlog2_mono (q1 q2 : Q) : (0 < q1)%Q -> (q1 <= q2)%Q -> qlog2 q1 <= qlog2 q2.
Proof.
  intros H L.
  destruct (qlog2_spec q1 H) as [A1 _].
  destruct (qlog2_spec q2 (Qlt_le_trans _ _ _ H L)) as [_ B2].
  assert (pow2 (qlog2 q1) < pow2 (qlog2 q2 + 1))%Q.
  { apply Qle_lt_trans with q1; [exact A1|]. apply Qle_lt_trans with q2; assumption. }
  destruct (Z.le_gt_cases (qlog2 q1) (qlog2 q2)) as [|G]; [assumption|].
  exfalso. apply (Qlt_irrefl (pow2 (qlog2 q1))).
  apply Qlt_le_trans with (pow2 (qlog2 q2 + 1)); [assumption|]. apply pow2_le. lia.
Qed.

Lemma rhe_Qeq (x y : Q) : (x == y)%Q -> round_half_even x = round_half_even y.
Proof.
  intros E. unfold round_half_even. rewrite (Qfloor_comp x y E).
  assert (C : (x - inject_Z (Qfloor y) ?= 1 # 2)%Q = (y - inject_Z (Qfloor y) ?= 1 # 2)%Q).
  { apply Qcompare_comp; [rewrite E; reflexivity | reflexivity]. }
  rewrite C. reflexivity.
Qed.

Lemma rhe_int (k : Z) : round_half_even (inject_Z k) = k.
Proof.
  unfold round_half_even. rewrite Qfloor_Z.
  assert (C : (inject_Z k - inject_Z k ?= 1 # 2)%Q = Lt).
  { apply (proj1 (Qlt_alt _ _)). lra. }
  rewrite C. reflexivity.
Qed.

Lemma rhe_mono (x y : Q) : (x <= y)%Q -> round_half_even x <= round_half_even y.
Proof.
  intros L. unfold round_half_even.
  pose proof (Qfloor_resp_le _ _ L) as Lf.
  destruct (Z.le_gt_cases (Qfloor y) (Qfloor x)) as [E|G].
  - assert (Ef : Qfloor y = Qfloor x) by lia. rewrite Ef. set (f := Qfloor x).
    destruct (Qcompare_spec (x - inject_Z f) (1#2)) as [Hx|Hx|Hx];
    destruct (Qcompare_spec (y - inject_Z f) (1#2)) as [Hy|Hy|Hy];
    try (destruct (Z.even f)); try lia; exfalso; lra.
  - destruct ((x - inject_Z (Qfloor x) ?= 1 # 2)%Q);
    destruct ((y - inject_Z (Qfloor y) ?= 1 # 2)%Q);
    try (destruct (Z.even (Qfloor x))); try (destruct (Z.even (Qfloor y))); lia.
Qed.

Lemma rhe_le (x : Q) (k : Z) : (x <= inject_Z k)%Q -> round_half_even x <= k.
Proof. intros H. rewrite <- (rhe_int k). now apply rhe_mono. Qed.

Lemma rhe_ge (x : Q) (k : Z) : (inject_Z k <= x)%Q -> k <= round_half_even x.
Proof. intros H. rewrite <- (rhe_int k). now apply rhe_mono. Qed.

Lemma round_abs_Qeq (prec emin emax : Z) (a b : Q) :
  (0 < a)%Q -> (a == b)%Q -> round_abs prec emin emax a = round_abs prec emin emax b.
Proof.
  intros H E. unfold round_abs. rewrite (qlog2_Qeq a b H E).
  rewrite (rhe_Qeq (a / pow2 (Z.max (qlog2 b - (prec - 1)) emin))
                   (b / pow2 (Z.max (qlog2 b - (prec - 1)) emin))) by (rewrite E; reflexivity).
  reflexivity.
Qed.

Lemma Qdiv_le_compat_r (a b c : Q) : (0 < c)%Q -> (a <= b)%Q -> (a / c <= b / c)%Q.
Proof.
  intros Hc L. apply Qle_shift_div_l; [exact Hc|].
  unfold Qdiv. rewrite <- Qmult_assoc, (Qmult_comm (/ c)), Qmult_inv_r by (intro; lra).
  rewrite Qmult_1_r. exact L.
Qed.

Lemma round_abs_nonneg (prec emin emax : Z) (a : Q) (v : Q) :
  (0 < a)%Q -> round_abs prec emin emax a = Some v -> (0 <= v)%Q.
Proof.
  intros H. unfold round_abs.
  set (e := Z.max (qlog2 a - (prec - 1)) emin).
  destruct (Qle_bool (pow2 emax) _); [discriminate|]. intros [= <-].
  apply Qmult_le_0_compat; [|apply Qlt_le_weak, pow2_pos].
  change 0%Q with (inject_Z 0). rewrite <- Zle_Qle. apply rhe_ge.
  apply Qle_shift_div_l; [apply pow2_pos|]. rewrite Qmult_0_l. lra.
Qed.

Lemma round_abs_mono (prec emin emax : Z) (a b : Q) :
  1 <= prec -> (0 < a)%Q -> (a <= b)%Q ->
  ole (round_abs prec emin emax a) (round_abs prec emin emax b).
Proof.
  intros Hp Ha L.
  assert (Hb : (0 < b)%Q) by lra.
  set (ea := Z.max (qlog2 a - (prec - 1)) emin).
  set (eb := Z.max (qlog2 b - (prec - 1)) emin).
  set (ma := round_half_even (a / pow2 ea)).
  set (mb := round_half_even (b / pow2 eb)).
  assert (Le : (inject_Z ma * pow2 ea <= inject_Z mb * pow2 eb)%Q).
  { pose proof (qlog2_mono a b Ha L) as Lq.
    assert (Hab : ea <= eb) by (unfold ea, eb; lia).
    destruct (Z.eq_dec ea eb) as [Eq|Ne].
    - unfold ma, mb. rewrite <- Eq. apply Qmult_le_compat_r; [|apply Qlt_le_weak, pow2_pos].
      rewrite <- Zle_Qle. apply rhe_mono. apply Qdiv_le_compat_r; [apply pow2_pos|exact L].
    - assert (Eb : eb = qlog2 b - (prec - 1)) by (unfold ea, eb in *; lia).
      destruct (qlog2_spec a Ha) as [_ Ua].
      destruct (qlog2_spec b Hb) as [Lb _].
      (* ma <= 2^prec *)
      assert (Hma : ma <= 2 ^ prec).
      { apply rhe_le. rewrite <- pow2_Z by lia.
        apply Qle_shift_div_r; [apply pow2_pos|]. rewrite <- pow2_add.
        apply Qle_trans with (pow2 (qlog2 a + 1)); [lra|]. apply pow2_le. unfold ea; lia. }
      assert (Hmb : 2 ^ (prec - 1) <= mb).
      { apply rhe_ge. rewrite <- pow2_Z by lia.
        apply Qle_shift_div_l; [apply pow2_pos|]. rewrite <- pow2_add.
        apply Qle_trans with (pow2 (qlog2 b)); [|exact Lb]. apply pow2_le. lia. }
      apply Qle_trans with (pow2 (ea + prec)).
      + rewrite pow2_add, (Qmult_comm (pow2 ea)).
        apply Qmult_le_compat_r; [|apply Qlt_le_weak, pow2_pos].
        rewrite pow2_Z by lia. rewrite <- Zle_Qle. exact Hma.
      + apply Qle_trans with (pow2 (eb + (prec - 1))).
        * apply pow2_le. lia.
        * rewrite pow2_add, (Qmult_comm (pow2 eb)). apply Qmult_le_compat_r; [|apply Qlt_le_weak, pow2_pos].
          rewrite pow2_Z by lia. rewrite <- Zle_Qle. exact Hmb. }
  unfold round_abs. fold ea eb ma mb.
  destruct (Qle_bool (pow2 emax) (inject_Z ma * pow2 ea)) eqn:Ea;
  destruct (Qle_bool (pow2 emax) (inject_Z mb * pow2 eb)) eqn:Eb; simpl; auto.
  apply Qle_bool_iff in Ea.
  assert (C : Qle_bool (pow2 emax) (inject_Z mb * pow2 eb) = true)
    by (apply Qle_bool_iff; exact (Qle_trans _ _ _ Ea Le)).
  congruence.
Qed.

Lemma pow2_nonzero (e : Z) : ~ (pow2 e == 0)%Q.
Proof. intros E. pose proof (pow2_pos e). lra. Qed.

Lemma pow2_split (e E : Z) : (pow2 e == pow2 (e - E) * pow2 E)%Q.
Proof. rewrite <- pow2_add. replace (e - E + E) with e by ring. reflexivity. Qed.

Lemma Qeq_bool_false (q : Q) : ~ (q == 0)%Q -> Qeq_bool q 0 = false.
Proof. intros H. destruct (Qeq_bool q 0) eqn:E; [|reflexivity]. apply Qeq_bool_iff in E. contradiction. Qed.

Lemma round_binary_pos (prec emin emax : Z) (q : Q) :
  (0 < q)%Q ->
  round_binary prec emin emax q
  = match round_abs prec emin emax q with None => Inf false | Some v => Fin (Qred v) end.
Proof.
  intros H. unfold round_binary. rewrite Qeq_bool_false by (intro; lra).
  rewrite (round_abs_Qeq prec emin emax (Qabs q) q) by (rewrite Qabs_pos; lra).
  replace (Qle_bool 0 q) with true by (symmetry; apply Qle_bool_iff; lra).
  reflexivity.
Qed.

Lemma round_binary_neg (prec emin emax : Z) (q : Q) :
  (q < 0)%Q ->
  round_binary prec emin emax q
  = match round_abs prec emin emax (- q) with None => Inf true | Some v => Fin (Qred (- v)) end.
Proof.
  intros H. unfold round_binary. rewrite Qeq_bool_false by (intro; lra).
  rewrite (round_abs_Qeq prec emin emax (Qabs q) (- q)) by (rewrite Qabs_neg; lra).
  replace (Qle_bool 0 q) with false.
  - reflexivity.
  - symmetry. destruct (Qle_bool 0 q) eqn:E; [|reflexivity]. apply Qle_bool_iff in E. lra.
Qed.

Lemma round_binary_zero (prec emin emax : Z) (q : Q) :
  (q == 0)%Q -> round_binary prec emin emax q = Fin 0.
Proof.
  intros H. unfold round_binary. replace (Qeq_bool q 0) with true by (symmetry; apply Qeq_bool_iff; exact H).
  reflexivity.
Qed.

Lemma round_binary_Qeq (prec emin emax : Z) (q1 q2 : Q) :
  (q1 == q2)%Q -> round_binary prec emin emax q1 = round_binary prec emin emax q2.
Proof.
  intros E. destruct (Q_dec q1 0) as [[H|H]|H].
  - rewrite !round_binary_neg by lra.
    rewrite (round_abs_Qeq prec emin emax (- q1) (- q2)) by lra. reflexivity.
  - rewrite !round_binary_pos by lra.
    rewrite (round_abs_Qeq prec emin emax q1 q2) by lra. reflexivity.
  - rewrite !round_binary_zero by lra. reflexivity.
Qed.

Lemma round_binary_mono (prec emin emax : Z) (q1 q2 : Q) :
  1 <= prec -> (q1 <= q2)%Q ->
  fle (round_binary prec emin emax q1) (round_binary prec emin emax q2).
Proof.
  intros Hp L.
  destruct (Q_dec q1 0) as [[H1|H1]|H1]; destruct (Q_dec q2 0) as [[H2|H2]|H2];
    try (exfalso; lra);
    rewrite ?(round_binary_neg prec emin emax q1 H1), ?(round_binary_neg prec emin emax q2 H2),
            ?(round_binary_pos prec emin emax q1 H1), ?(round_binary_pos prec emin emax q2 H2),
            ?(round_binary_zero prec emin emax q1 H1), ?(round_binary_zero prec emin emax q2 H2).
  - pose proof (round_abs_mono prec emin emax (- q2) (- q1) Hp ltac:(lra) ltac:(lra)) as M.
    destruct (round_abs prec emin emax (- q1)) as [v1|]; [|destruct (round_abs prec emin emax (- q2)); exact I].
    destruct (round_abs prec emin emax (- q2)) as [v2|]; [|contradiction].
    cbn [fle ole] in *. rewrite Qred_le. lra.
  - destruct (round_abs prec emin emax (- q1)) as [v1|] eqn:E1;
      destruct (round_abs prec emin emax q2) as [v2|] eqn:E2; cbn [fle]; auto.
    apply round_abs_nonneg in E1; [|lra]. apply round_abs_nonneg in E2; [|lra].
    rewrite !Qred_correct. lra.
  - destruct (round_abs prec emin emax (- q1)) as [v1|] eqn:E1; cbn [fle]; auto.
    apply round_abs_nonneg in E1; [|lra]. rewrite Qred_correct. lra.
  - pose proof (round_abs_mono prec emin emax q1 q2 Hp H1 L) as M.
    destruct (round_abs prec emin emax q2) as [v2|]; [|destruct (round_abs prec emin emax q1); exact I].
    destruct (round_abs prec emin emax q1) as [v1|]; [|contradiction].
    cbn [fle ole] in *. rewrite Qred_le. exact M.
  - destruct (round_abs prec emin emax q2) as [v2|] eqn:E2; cbn [fle]; auto.
    apply round_abs_nonneg in E2; [|lra]. rewrite Qred_correct. exact E2.
  - cbn [fle]. lra.
Qed.

Lemma round_abs_exact (prec emin emax M e : Z) :
  1 <= prec -> 0 < M <= 2 ^ prec -> emin <= e -> e + prec < emax ->
  exists v, round_abs prec emin emax (inject_Z M * pow2 e) = Some v /\
            (v == inject_Z M * pow2 e)%Q.
Proof.
  intros Hp HM He Hmax.
  set (a := (inject_Z M * pow2 e)%Q).
  assert (Ha : (0 < a)%Q).
  { unfold a. apply Qmult_lt_0_compat; [|apply pow2_pos].
    change 0%Q with (inject_Z 0). rewrite <- Zlt_Qlt. lia. }
  assert (Hup : (a <= pow2 (e + prec))%Q).
  { unfold a. rewrite pow2_add, (Qmult_comm (pow2 e)).
    apply Qmult_le_compat_r; [|apply Qlt_le_weak, pow2_pos].
    rewrite pow2_Z by lia. rewrite <- Zle_Qle. lia. }
  destruct (qlog2_spec a Ha) as [S1 S2].
  assert (HL : qlog2 a <= e + prec) by (apply pow2_le_inv; lra).
  set (E := Z.max (qlog2 a - (prec - 1)) emin).
  assert (HK : exists K, (a / pow2 E == inject_Z K)%Q).
  { destruct (Z.le_gt_cases (qlog2 a) (e + prec - 1)) as [C|C].
    - exists (M * 2 ^ (e - E)). unfold a. rewrite (pow2_split e E).
      rewrite inject_Z_mult, <- pow2_Z by (unfold E; lia).
      field. apply pow2_nonzero.
    - assert (HqE : qlog2 a = e + prec) by lia.
      assert (HM2 : M = 2 ^ prec).
      { assert (pow2 (e + prec) <= a)%Q by (rewrite <- HqE; exact S1).
        assert (inject_Z (2 ^ prec) <= inject_Z M)%Q.
        { unfold a in *. rewrite pow2_add, (Qmult_comm (pow2 e)) in H.
          rewrite <- pow2_Z by lia.
          apply (Qmult_le_r _ _ (pow2 e)); [apply pow2_pos | exact H]. }
        rewrite <- Zle_Qle in H0. lia. }
      assert (EE : E = e + 1) by (unfold E; lia).
      exists (2 ^ (prec - 1)). unfold a. rewrite EE, HM2.
      rewrite <- !pow2_Z by lia. rewrite (pow2_split prec 1), pow2_add.
      replace (prec - 1) with (prec - 1) by ring.
      field. split; apply pow2_nonzero. }
  destruct HK as [K HK].
  unfold round_abs. fold a E. rewrite (rhe_Qeq _ _ HK), rhe_int.
  assert (Hv : (inject_Z K * pow2 E == a)%Q).
  { rewrite <- HK. field. apply pow2_nonzero. }
  replace (Qle_bool (pow2 emax) (inject_Z K * pow2 E)) with false.
  - exists (inject_Z K * pow2 E)%Q. split; [reflexivity | exact Hv].
  - symmetry. destruct (Qle_bool (pow2 emax) (inject_Z K * pow2 E)) eqn:C; [|reflexivity].
    apply Qle_bool_iff in C. rewrite Hv in C.
    assert (pow2 (e + prec) < pow2 emax)%Q by (apply pow2_lt; exact Hmax).
    lra.
Qed.

Lemma round_binary_exact (prec emin emax m e : Z) :
  1 <= prec -> Z.abs m <= 2 ^ prec -> emin <= e -> e + prec < emax ->
  round_binary prec emin emax (inject_Z m * pow2 e) = Fin (Qred (inject_Z m * pow2 e)).
Proof.
  intros Hp Hm He Hmax.
  destruct (Z.lt_trichotomy m 0) as [N|[Z0|P]].
  - rewrite round_binary_neg.
    + destruct (round_abs_exact prec emin emax (- m) e Hp ltac:(lia) He Hmax) as (v & Ev & Hv).
      assert (Eo : (- (inject_Z m * pow2 e) == inject_Z (- m) * pow2 e)%Q)
        by (rewrite inject_Z_opp; ring).
      rewrite (round_abs_Qeq prec emin emax _ (inject_Z (- m) * pow2 e)).
      * rewrite Ev. f_equal. apply Qred_complete. rewrite Hv, inject_Z_opp. ring.
      * rewrite Eo. apply Qmult_lt_0_compat; [|apply pow2_pos]. change 0%Q with (inject_Z 0).
        rewrite <- Zlt_Qlt. lia.
      * exact Eo.
    + apply Qlt_le_trans with (0 * pow2 e)%Q; [|lra].
      apply Qmult_lt_r; [apply pow2_pos|]. change 0%Q with (inject_Z 0). rewrite <- Zlt_Qlt. exact N.
  - subst m. rewrite round_binary_zero by (simpl; ring). reflexivity.
  - rewrite round_binary_pos.
    + destruct (round_abs_exact prec emin emax m e Hp ltac:(lia) He Hmax) as (v & Ev & Hv).
      rewrite Ev. f_equal. apply Qred_complete. exact Hv.
    + apply Qmult_lt_0_compat; [|apply pow2_pos]. change 0%Q with (inject_Z 0).
      rewrite <- Zlt_Qlt. exact P.
Qed.

Lemma Qred_inject_Z (z : Z) : Qred (inject_Z z) = inject_Z z.
Proof.
  unfold Qred, inject_Z.
  pose proof (Z.ggcd_gcd z 1) as G. pose proof (Z.ggcd_correct_divisors z 1) as D.
  destruct (Z.ggcd z 1) as [g [a b]]. simpl in G, D |- *.
  rewrite Z.gcd_1_r in G. subst g. destruct D as [D1 D2].
  rewrite Z.mul_1_l in D1, D2. subst. reflexivity.
Qed.

Lemma round32_Z (q : Q) (k : Z) :
  (q == inject_Z k)%Q -> Z.abs k <= 2 ^ 24 -> round32 q = Fin (inject_Z k).
Proof.
  intros E Hk. unfold round32.
  assert (E' : (q == inject_Z k * pow2 0)%Q) by (rewrite E; unfold pow2; simpl; ring).
  rewrite (round_binary_Qeq _ _ _ _ _ E').
  rewrite round_binary_exact by lia. f_equal.
  rewrite (Qred_complete _ (inject_Z k)) by (unfold pow2; simpl; ring).
  apply Qred_inject_Z.
Qed.

Lemma round32_half (q : Q) (k : Z) :
  (q == k # 2)%Q -> Z.abs k <= 2 ^ 24 -> round32 q = Fin (Qred (k # 2)).
Proof.
  intros E Hk. unfold round32.
  assert (Eh : (k # 2 == inject_Z k * pow2 (-1))%Q).
  { unfold pow2. simpl. unfold Qeq; simpl. lia. }
  rewrite (round_binary_Qeq _ _ _ _ _ (Qeq_trans _ _ _ E Eh)).
  rewrite round_binary_exact by lia. f_equal. apply Qred_complete. symmetry. exact Eh.
Qed.

Lemma f32_of_Z_small (z : Z) : Z.abs z <= 2 ^ 24 -> f32_of_Z z = Fin (inject_Z z).
Proof. intros H. apply round32_Z; [reflexivity | exact H]. Qed.

Ltac qeq_solve :=
  first [ lia
        | (unfold Qeq; simpl; lia)
        | (rewrite Qred_correct; unfold Qeq; simpl; lia) ].

Lemma striding_step_exact (l : Z) :
  0 <= l <= 2 ^ 24 ->
  calc_step (1 * 2 - 3) 2 false (Fin (inject_Z l)) = Fin (inject_Z (zstep (1 * 2 - 3) 2 false l)).
Proof.
  intros Hl. destruct (Z.eq_dec l (2 ^ 24)) as [->|Ne]; [vm_compute; reflexivity|].
  unfold calc_step.
  rewrite (f32_of_Z_small (1 * 2 - 3)), (f32_of_Z_small 2) by lia. cbn [fadd fdiv].
  rewrite (round32_Z _ (l - 1)) by qeq_solve.
  cbn [fdiv]. change (Qeq_bool (inject_Z 2) 0) with false. cbv iota.
  rewrite (round32_half _ (l - 1)) by qeq_solve.
  cbn [fadd].
  rewrite (round32_half _ (l + 1)) by qeq_solve.
  cbn [ffloor]. do 2 f_equal.
  rewrite (Qfloor_comp _ ((l + 1) # 2)) by apply Qred_correct.
  unfold zstep. simpl Qfloor. f_equal. ring.
Qed.

Lemma vggnet_step_exact (l : Z) :
  0 <= l <= 2 ^ 24 ->
  calc_step (0 * 2 - 2) 2 true (Fin (inject_Z l)) = Fin (inject_Z (zstep (0 * 2 - 2) 2 true l)).
Proof.
  intros Hl. unfold calc_step.
  rewrite (f32_of_Z_small (0 * 2 - 2)), (f32_of_Z_small 2) by lia. cbn [fadd].
  rewrite (round32_Z _ (l - 2)) by qeq_solve.
  cbn [fdiv]. change (Qeq_bool (inject_Z 2) 0) with false. cbv iota.
  rewrite (round32_half _ (l - 2)) by qeq_solve.
  cbn [fadd].
  rewrite (round32_half _ l) by qeq_solve.
  cbn [fceil]. do 2 f_equal.
  rewrite (Qceiling_comp _ (l # 2)) by apply Qred_correct.
  unfold zstep, Qceiling. simpl Qfloor. do 3 f_equal. ring.
Qed.

Lemma zstep_striding_bounds (l : Z) : 0 <= l -> 0 <= zstep (1 * 2 - 3) 2 false l <= l.
Proof. intros H. unfold zstep. Z.div_mod_to_equations. lia. Qed.

Lemma zstep_vggnet_bounds (l : Z) : 0 <= l -> 0 <= zstep (0 * 2 - 2) 2 true l <= l.
Proof. intros H. unfold zstep. Z.div_mod_to_equations. lia. Qed.

Section ExactLoop.

Variables (a s : Z) (c : bool).

Hypothesis step_exact : forall l, 0 <= l <= 2 ^ 24 ->
  calc_step a s c (fin_Z l) = fin_Z (zstep a s c l).

Hypothesis step_bounds : forall l, 0 <= l -> 0 <= zstep a s c l <= l.

Lemma calc_loop_exact (n : nat) (ls : list Z) :
  Forall (fun l => 0 <= l <= 2 ^ 24) ls ->
  calc_loop a s c n (Float32 (map fin_Z ls)) = Float32 (map fin_Z (map (zloop a s c n) ls)).
Proof.
  revert ls. induction n as [|n IH]; intros ls H; simpl.
  - rewrite map_id. reflexivity.
  - rewrite map_map.
    rewrite (map_ext_in _ (fun l => fin_Z (zstep a s c l))).
    2:{ intros l Hin. apply step_exact. rewrite Forall_forall in H. apply H, Hin. }
    rewrite <- (map_map (zstep a s c) fin_Z), IH.
    { f_equal. rewrite !map_map. reflexivity. }
    rewrite Forall_forall in *. intros l Hin. apply in_map_iff in Hin.
    destruct Hin as (l0 & <- & Hin). specialize (H l0 Hin). specialize (step_bounds l0 ltac:(lia)). lia.
Qed.

End ExactLoop.

Lemma to_int_fin (ls : list Z) :
  Forall (fun l => 0 <= l <= 2 ^ 24) ls -> to_int (Float32 (map fin_Z ls)) = ls.
Proof.
  intros H. simpl. rewrite map_map. rewrite <- (map_id ls) at 2. apply map_ext_in.
  intros l Hin. rewrite Forall_forall in H. specialize (H l Hin).
  unfold float_to_int32, fin_Z, Qtrunc.
  replace (Qle_bool 0 (inject_Z l)) with true by (symmetry; apply Qle_bool_iff; change 0%Q with (inject_Z 0); rewrite <- Zle_Qle; lia).
  rewrite Qfloor_Z. replace (in_int32 l) with true by (symmetry; unfold in_int32; rewrite andb_true_iff, Z.leb_le, Z.ltb_lt; lia).
  reflexivity.
Qed.

Lemma to_int64_small (ls : list Z) :
  Forall (fun l => 0 <= l <= 2 ^ 24) ls -> to_int (Int64 ls) = ls.
Proof.
  intros H. simpl. rewrite <- (map_id ls) at 2. apply map_ext_in.
  intros l Hin. rewrite Forall_forall in H. specialize (H l Hin).
  unfold int64_to_int32. rewrite Z.mod_small by lia. lia.
Qed.

Lemma to_float_small (ls : list Z) :
  Forall (fun l => 0 <= l <= 2 ^ 24) ls -> to_float (Int64 ls) = map fin_Z ls.
Proof.
  intros H. simpl. apply map_ext_in. intros l Hin. rewrite Forall_forall in H.
  specialize (H l Hin). apply f32_of_Z_small. lia.
Qed.

Lemma zloop_bounds (a s : Z) (c : bool) (n : nat) (l : Z) :
  (forall l, 0 <= l -> 0 <= zstep a s c l <= l) ->
  0 <= l -> 0 <= zloop a s c n l <= l.
Proof.
  intros Hb. revert l. induction n as [|n IH]; intros l Hl; simpl; [lia|].
  specialize (Hb l Hl). specialize (IH (zstep a s c l) ltac:(lia)). lia.
Qed.

Lemma Forall_map_bounds (f : Z -> Z) (ls : list Z) :
  (forall l, 0 <= l -> 0 <= f l <= l) ->
  Forall (fun l => 0 <= l <= 2 ^ 24) ls -> Forall (fun l => 0 <= l <= 2 ^ 24) (map f ls).
Proof.
  intros Hf H. rewrite Forall_forall in *. intros x Hx. apply in_map_iff in Hx.
  destruct Hx as (y & <- & Hy). specialize (H y Hy). specialize (Hf y ltac:(lia)). lia.
Qed.

Lemma calc_length_exact (s : Z) (c : bool) (p k n : Z) (ls : list Z) :
  (forall l, 0 <= l <= 2 ^ 24 -> calc_step (p * 2 - k) s c (fin_Z l) = fin_Z (zstep (p * 2 - k) s c l)) ->
  (forall l, 0 <= l -> 0 <= zstep (p * 2 - k) s c l <= l) ->
  Forall (fun l => 0 <= l <= 2 ^ 24) ls ->
  calc_length ls p k s c n = map (zloop (p * 2 - k) s c (Z.to_nat n)) ls.
Proof.
  intros Hs Hb H. unfold calc_length, calc_length_t.
  destruct (Z.to_nat n) as [|n'].
  - simpl calc_loop. rewrite to_int64_small by exact H. symmetry. apply map_id.
  - cbn [calc_loop]. rewrite to_float_small by exact H.
    rewrite map_map.
    rewrite (map_ext_in _ (fun l => fin_Z (zstep (p * 2 - k) s c l))).
    2:{ intros l Hin. apply Hs. rewrite Forall_forall in H. apply H, Hin. }
    rewrite <- (map_map (zstep (p * 2 - k) s c) fin_Z).
    rewrite calc_loop_exact; [| exact Hs | exact Hb | apply Forall_map_bounds; assumption ].
    rewrite to_int_fin.
    + rewrite map_map. reflexivity.
    + apply Forall_map_bounds; [|apply Forall_map_bounds; assumption].
      intros l Hl. apply zloop_bounds; assumption.
Qed.

Lemma striding_calc_length (n : Z) (ls : list Z) :
  Forall (fun l => 0 <= l <= 2 ^ 24) ls ->
  calc_length ls 1 3 2 false n = map (zloop (1 * 2 - 3) 2 false (Z.to_nat n)) ls.
Proof.
  apply calc_length_exact; [exact striding_step_exact | exact zstep_striding_bounds].
Qed.

Lemma vggnet_calc_length (n : Z) (ls : list Z) :
  Forall (fun l => 0 <= l <= 2 ^ 24) ls ->
  calc_length ls 0 2 2 true n = map (zloop (0 * 2 - 2) 2 true (Z.to_nat n)) ls.
Proof.
  apply calc_length_exact; [exact vggnet_step_exact | exact zstep_vggnet_bounds].
Qed.

Lemma round64_Z (q : Q) (k : Z) :
  (q == inject_Z k)%Q -> Z.abs k <= 2 ^ 53 -> round64 q = Fin (inject_Z k).
Proof.
  intros E Hk. unfold round64.
  assert (E' : (q == inject_Z k * pow2 0)%Q) by (rewrite E; unfold pow2; simpl; ring).
  rewrite (round_binary_Qeq _ _ _ _ _ E').
  rewrite round_binary_exact by lia. f_equal.
  rewrite (Qred_complete _ (inject_Z k)) by (unfold pow2; simpl; ring).
  apply Qred_inject_Z.
Qed.

Lemma round_binary_not_nan (prec emin emax : Z) (q : Q) : round_binary prec emin emax q <> NaN.
Proof.
  unfold round_binary. destruct (Qeq_bool q 0); [discriminate|].
  destruct (round_abs prec emin emax (Qabs q)); discriminate.
Qed.

Lemma fle_bot (x : fvalue) : x <> NaN -> fle (Inf true) x.
Proof. destruct x as [| [|] |]; simpl; tauto. Qed.

Lemma fle_top (x : fvalue) : x <> NaN -> fle x (Inf false).
Proof. destruct x as [| [|] |]; simpl; tauto. Qed.

Lemma fle_not_nan_l (x y : fvalue) : fle x y -> x <> NaN.
Proof. destruct x as [| [|] |], y as [| [|] |]; simpl; try tauto; discriminate. Qed.

Lemma fle_not_nan_r (x y : fvalue) : fle x y -> y <> NaN.
Proof. destruct x as [| [|] |], y as [| [|] |]; simpl; try tauto; discriminate. Qed.

Lemma round_abs_one_exact (prec emin emax : Z) (E : Z) :
  1 <= prec -> emin <= E -> E + prec < emax ->
  exists v, round_abs prec emin emax (pow2 E) = Some v /\ (v == pow2 E)%Q.
Proof.
  intros Hp He Hm.
  destruct (round_abs_exact prec emin emax 1 E Hp ltac:(split; [lia | pose proof (Z.pow_pos_nonneg 2 prec ltac:(lia) ltac:(lia)); lia]) He Hm)
    as (v & Ev & Hv).
  exists v. rewrite <- (round_abs_Qeq _ _ _ (inject_Z 1 * pow2 E)); [| |].
  - split; [exact Ev|]. rewrite Hv. ring.
  - apply Qmult_lt_0_compat; [reflexivity | apply pow2_pos].
  - ring.
Qed.

(** An integer of magnitude at most [2^64] is a finite float32, at least
    1 when the integer is. *)

Lemma f32_of_Z_pos (z : Z) :
  1 <= z <= 2 ^ 64 -> exists b, f32_of_Z z = Fin b /\ (1 <= b)%Q.
Proof.
  intros Hz. unfold f32_of_Z, round32.
  assert (Hq : (0 < inject_Z z)%Q) by (change 0%Q with (inject_Z 0); rewrite <- Zlt_Qlt; lia).
  rewrite round_binary_pos by exact Hq.
  destruct (round_abs_one_exact 24 (-149) 128 0 ltac:(lia) ltac:(lia) ltac:(lia)) as (v1 & E1 & H1).
  destruct (round_abs_one_exact 24 (-149) 128 64 ltac:(lia) ltac:(lia) ltac:(lia)) as (v2 & E2 & H2).
  pose proof (round_abs_mono 24 (-149) 128 (pow2 0) (inject_Z z) ltac:(lia) (pow2_pos 0)
                ltac:(unfold pow2; simpl; change 1%Q with (inject_Z 1); rewrite <- Zle_Qle; lia)) as M1.
  pose proof (round_abs_mono 24 (-149) 128 (inject_Z z) (pow2 64) ltac:(lia) Hq
                ltac:(rewrite pow2_Z by lia; rewrite <- Zle_Qle; lia)) as M2.
  rewrite E1 in M1. rewrite E2 in M2.
  destruct (round_abs 24 (-149) 128 (inject_Z z)) as [v|]; [|contradiction].
  exists (Qred v). split; [reflexivity|]. cbn [ole] in M1. rewrite Qred_correct.
  rewrite H1 in M1. unfold pow2 in M1. simpl in M1. exact M1.
Qed.

Lemma f32_of_Z_fin (z : Z) : Z.abs z <= 2 ^ 64 -> exists b, f32_of_Z z = Fin b.
Proof.
  intros Hz. destruct (Z.lt_trichotomy z 0) as [N|[Z0|P]].
  - unfold f32_of_Z, round32.
    assert (Hq : (inject_Z z < 0)%Q) by (change 0%Q with (inject_Z 0); rewrite <- Zlt_Qlt; lia).
    rewrite round_binary_neg by exact Hq.
    destruct (f32_of_Z_pos (- z) ltac:(lia)) as (b & Eb & _).
    unfold f32_of_Z, round32 in Eb.
    rewrite round_binary_pos in Eb by (change 0%Q with (inject_Z 0); rewrite <- Zlt_Qlt; lia).
    rewrite inject_Z_opp in Eb.
    destruct (round_abs 24 (-149) 128 (- inject_Z z)); [eexists; reflexivity | discriminate].
  - subst z. exists 0%Q. reflexivity.
  - destruct (f32_of_Z_pos z ltac:(lia)) as (b & Eb & _). exists b. exact Eb.
Qed.

Lemma fadd_fin_mono (x y : fvalue) (c : Q) :
  fle x y -> fle (fadd round32 x (Fin c)) (fadd round32 y (Fin c)).
Proof.
  intros H. destruct x as [a| [|] |], y as [b| [|] |]; simpl in H |- *; try contradiction;
    try (apply fle_bot || apply fle_top); try apply round_binary_not_nan; try exact I.
  apply round_binary_mono; [lia | lra].
Qed.

Lemma fdiv_fin_mono (x y : fvalue) (b : Q) :
  (0 < b)%Q -> fle x y -> fle (fdiv round32 x (Fin b)) (fdiv round32 y (Fin b)).
Proof.
  intros Hb H.
  assert (E0 : Qeq_bool b 0 = false) by (apply Qeq_bool_false; intro; lra).
  assert (E1 : Qle_bool 0 b = true) by (apply Qle_bool_iff; lra).
  destruct x as [a1| [|] |], y as [a2| [|] |]; simpl in H |- *; rewrite ?E0, ?E1; simpl;
    try contradiction;
    try (apply fle_bot || apply fle_top); try apply round_binary_not_nan; try exact I.
  apply round_binary_mono; [lia|]. apply Qdiv_le_compat_r; assumption.
Qed.

Lemma ffloor_mono (x y : fvalue) : fle x y -> fle (ffloor x) (ffloor y).
Proof.
  intros H. destruct x as [a| [|] |], y as [b| [|] |]; simpl in H |- *; try tauto.
  rewrite <- Zle_Qle. apply Qfloor_resp_le. exact H.
Qed.

Lemma fceil_mono (x y : fvalue) : fle x y -> fle (fceil x) (fceil y).
Proof.
  intros H. destruct x as [a| [|] |], y as [b| [|] |]; simpl in H |- *; try tauto.
  rewrite <- Zle_Qle. apply Qceiling_resp_le. exact H.
Qed.

Lemma calc_step_mono (a s : Z) (c : bool) (x y : fvalue) :
  0 < s < 2 ^ 63 -> - 2 ^ 63 <= a < 2 ^ 63 ->
  fle x y -> fle (calc_step a s c x) (calc_step a s c y).
Proof.
  intros Hs Ha H. unfold calc_step.
  destruct (f32_of_Z_fin a ltac:(lia)) as [ca Ea].
  destruct (f32_of_Z_pos s ltac:(lia)) as (b & Eb & Hb).
  rewrite Ea, Eb.
  assert (M : fle (fadd round32 (fdiv round32 (fadd round32 x (Fin ca)) (Fin b)) (Fin 1))
                  (fadd round32 (fdiv round32 (fadd round32 y (Fin ca)) (Fin b)) (Fin 1))).
  { apply fadd_fin_mono, fdiv_fin_mono; [lra|]. apply fadd_fin_mono. exact H. }
  destruct c; [apply fceil_mono | apply ffloor_mono]; exact M.
Qed.

Lemma Qtrunc_mono (a b : Q) : (a <= b)%Q -> Qtrunc a <= Qtrunc b.
Proof.
  intros H. unfold Qtrunc.
  destruct (Qle_bool 0 a) eqn:Ea, (Qle_bool 0 b) eqn:Eb.
  - apply Qfloor_resp_le. exact H.
  - apply Qle_bool_iff in Ea. exfalso. destruct (Qle_bool 0 b) eqn:F; [discriminate|].
    assert (~ (0 <= b)%Q) by (intro C; apply Qle_bool_iff in C; congruence). lra.
  - assert (Na : ~ (0 <= a)%Q) by (intro C; apply Qle_bool_iff in C; congruence).
    apply Qle_bool_iff in Eb.
    assert (Qceiling a <= 0).
    { apply Z.le_trans with (Qceiling 0); [apply Qceiling_resp_le; lra | reflexivity]. }
    assert (0 <= Qfloor b).
    { apply Z.le_trans with (Qfloor 0); [reflexivity | apply Qfloor_resp_le; lra]. }
    lia.
  - apply Qceiling_resp_le. exact H.
Qed.

Lemma calc_loop_float (a s : Z) (c : bool) (n : nat) (l : list fvalue) :
  calc_loop a s c n (Float32 l) = Float32 (map (Nat.iter n (calc_step a s c)) l).
Proof.
  revert l. induction n as [|n IH]; intros l; simpl.
  - rewrite map_id. reflexivity.
  - rewrite IH, map_map. f_equal. apply map_ext. intros x. symmetry. apply Nat.iter_succ_r.
Qed.

Lemma calc_loop_succ (a s : Z) (c : bool) (n : nat) (t : ltensor) :
  calc_loop a s c (S n) t = Float32 (map (Nat.iter (S n) (calc_step a s c)) (to_float t)).
Proof.
  cbn [calc_loop]. rewrite calc_loop_float, map_map. f_equal. apply map_ext. intros x.
  symmetry. apply Nat.iter_succ_r.
Qed.

Lemma iter_ext {A : Type} (f g : A -> A) (n : nat) (a : A) :
  (forall x, f x = g x) -> Nat.iter n f a = Nat.iter n g a.
Proof. intros E. induction n as [|n IH]; simpl; congruence. Qed.

Lemma zstep_mono (a s : Z) (c : bool) (l1 l2 : Z) :
  0 < s -> l1 <= l2 -> zstep a s c l1 <= zstep a s c l2.
Proof.
  intros Hs Hl. unfold zstep. destruct c.
  - enough (- (l2 + a + s) / s <= - (l1 + a + s) / s) by lia.
    apply Z.div_le_mono; lia.
  - apply Z.div_le_mono; lia.
Qed.

Lemma zloop_mono (a s : Z) (c : bool) (n : nat) (l1 l2 : Z) :
  0 < s -> l1 <= l2 -> zloop a s c n l1 <= zloop a s c n l2.
Proof.
  intros Hs. revert l1 l2. induction n as [|n IH]; intros l1 l2 Hl; simpl.
  - exact Hl.
  - apply IH. now apply zstep_mono.
Qed.

Lemma zstep_nonneg (a s : Z) (c : bool) (l : Z) :
  0 < s -> - s <= a -> 0 <= l -> 0 <= zstep a s c l.
Proof.
  intros Hs Ha Hl. unfold zstep. destruct c.
  - enough (- (l + a + s) / s <= 0 / s) by (rewrite Z.div_0_l in *; lia).
    apply Z.div_le_mono; lia.
  - apply Z.div_pos; lia.
Qed.

Lemma zloop_nonneg (a s : Z) (c : bool) (n : nat) (l : Z) :
  0 < s -> - s <= a -> 0 <= l -> 0 <= zloop a s c n l.
Proof.
  intros Hs Ha. revert l. induction n as [|n IH]; intros l Hl; simpl.
  - exact Hl.
  - apply IH. now apply zstep_nonneg.
Qed.

(** ** Sizes through the convolution stack *)

Lemma conv_out_size_zstep (n k s p : Z) :
  0 < s -> conv_out_size n k s p = zstep (p * 2 - k) s false n.
Proof.
  intros Hs. unfold conv_out_size, zstep.
  replace (n + (p * 2 - k) + s) with (n + 2 * p - k + 1 * s) by ring.
  rewrite Z.div_add by lia. reflexivity.
Qed.

(** A 2x2 max-pool of stride 2 in ceiling mode never drops its last window,
    and its size is the ceiling form of [calc_length]. *)
Lemma pool_out_size_zstep (n : Z) :
  pooling_output_shape n 2 0 2 true = zstep (0 * 2 - 2) 2 true n.
Proof.
  unfold pooling_output_shape, zstep. simpl.
  replace (n + 0 - 1 - 1 + 1) with (n - 1) by ring.
  replace (n + -2 + 2) with n by ring.
  destruct (((n - 1) / 2 + 1 - 1) * 2 >=? n + 0) eqn:E.
  - apply Z.geb_le in E. Z.div_mod_to_equations. lia.
  - Z.div_mod_to_equations. lia.
Qed.

(** Discharge the error guards of [apply_layer] met in [H]. *)
Ltac pass_guards H :=
  repeat match type of H with
  | context [if ?g then None else _] => destruct g; simpl in H; [discriminate H|]
  end.

Lemma striding_layers_time (n : nat) (ic cc b c t d b' c' t' d' : Z) :
  apply_layers (ConvSub.striding_layers n ic cc 3 2 1) (b, c, t, d) = Some (b', c', t', d') ->
  t' = zloop (1 * 2 - 3) 2 false n t /\ d' = zloop (1 * 2 - 3) 2 false n d.
Proof.
  revert ic b c t d. induction n as [|n IH]; intros ic b c t d H; simpl in H.
  - inversion H; subst. tauto.
  - pass_guards H. apply IH in H. cbn [zloop].
    rewrite !conv_out_size_zstep in H by lia. exact H.
Qed.

Lemma vggnet_layers_time (n : nat) (ic cc b c t d b' c' t' d' : Z) :
  apply_layers (ConvSub.vggnet_layers n ic cc 2 2 0 true) (b, c, t, d) = Some (b', c', t', d') ->
  t' = zloop (0 * 2 - 2) 2 true n t /\ d' = zloop (0 * 2 - 2) 2 true n d.
Proof.
  revert ic b c t d. induction n as [|n IH]; intros ic b c t d H; simpl in H.
  - inversion H; subst. tauto.
  - pass_guards H. unfold conv_out_size in H. rewrite !Z.div_1_r in H.
    pass_guards H. apply IH in H. cbn [zloop].
    rewrite !pool_out_size_zstep in H.
    destruct H as [-> ->]. split; do 2 f_equal; ring.
Qed.


(** ** Casts and the float formula *)

Lemma Qtrunc_Z (k : Z) : Qtrunc (inject_Z k) = k.
Proof.
  unfold Qtrunc. destruct (Qle_bool 0 (inject_Z k)).
  - apply Qfloor_Z.
  - apply Qceiling_Z.
Qed.

Lemma int64_to_int32_small (z : Z) : in_int32 z = true -> int64_to_int32 z = z.
Proof.
  unfold in_int32, int64_to_int32. rewrite andb_true_iff, Z.leb_le, Z.ltb_lt. intros H.
  rewrite Z.mod_small by lia. lia.
Qed.

Lemma float_to_int32_fits (x : fvalue) (z : Z) :
  float_to_integer x = Some z -> in_int32 z = true -> float_to_int32 x = z.
Proof.
  destruct x as [q| |]; simpl; try discriminate.
  intros [= <-] H. rewrite H. reflexivity.
Qed.

Lemma spec_formula_calc_step (p k s : Z) (c : bool) (x : fvalue) :
  spec_length_formula p k s c x = calc_step (p * 2 - k) s c x.
Proof.
  unfold spec_length_formula, calc_step, round_mode.
  rewrite (Z.mul_comm 2 p). reflexivity.
Qed.

Lemma calc_length_t_exact (p k s : Z) (c : bool) (n : Z) (ls : list Z) :
  (forall l, 0 <= l <= 2 ^ 24 ->
     calc_step (p * 2 - k) s c (fin_Z l) = fin_Z (zstep (p * 2 - k) s c l)) ->
  (forall l, 0 <= l -> 0 <= zstep (p * 2 - k) s c l <= l) ->
  Forall (fun l => 0 <= l <= 2 ^ 24) ls ->
  calc_length_t (Float32 (map fin_Z ls)) p k s c n = map (zloop (p * 2 - k) s c (Z.to_nat n)) ls.
Proof.
  intros Hs Hb H. unfold calc_length_t. cbv zeta.
  rewrite (calc_loop_exact _ _ _ Hs Hb _ _ H).
  apply to_int_fin. apply Forall_map_bounds; [|exact H].
  intros l Hl. apply zloop_bounds; assumption.
Qed.

Lemma f32_of_Z_mono (a b : Z) : a <= b -> fle (f32_of_Z a) (f32_of_Z b).
Proof. intros H. apply round_binary_mono; [lia|]. rewrite <- Zle_Qle. exact H. Qed.

Lemma iter_step_mono (a s : Z) (c : bool) (n : nat) (x y : fvalue) :
  0 < s < 2 ^ 63 -> - 2 ^ 63 <= a < 2 ^ 63 ->
  fle x y -> fle (Nat.iter n (calc_step a s c) x) (Nat.iter n (calc_step a s c) y).
Proof.
  intros Hs Ha H. induction n as [|n IH]; simpl; [exact H|].
  apply calc_step_mono; assumption.
Qed.

Lemma float_to_int32_mono (x y : fvalue) :
  fle x y ->
  (match x with Fin q => in_int32 (Qtrunc q) | _ => false end) = true ->
  (match y with Fin q => in_int32 (Qtrunc q) | _ => false end) = true ->
  float_to_int32 x <= float_to_int32 y.
Proof.
  destruct x as [a| |], y as [b| |]; simpl; try discriminate.
  intros H Ha Hb. rewrite Ha, Hb. apply Qtrunc_mono. exact H.
Qed.

(** ** [int(math.log(f, 2))] *)

Lemma int_log2_ratio (ml : Z -> Q) (f k : Z) :
  0 < f -> ~ (ml 2%Z == 0)%Q -> (ml f == inject_Z k * ml 2%Z)%Q -> Z.abs k <= 2 ^ 53 ->
  ConvSub.int_log2 ml f = Some k.
Proof.
  intros Hf H2 Hk Hb. unfold ConvSub.int_log2.
  replace (f <=? 0) with false by (symmetry; apply Z.leb_gt; lia).
  cbv zeta. rewrite Qeq_bool_false by exact H2.
  rewrite (round64_Z _ k); [rewrite Qtrunc_Z; reflexivity | | exact Hb].
  rewrite Hk. field. exact H2.
Qed.

Lemma int_log2_pos (ml : Z -> Q) (f n : Z) : ConvSub.int_log2 ml f = Some n -> 0 < f.
Proof.
  unfold ConvSub.int_log2. destruct (f <=? 0) eqn:E; [discriminate|].
  intros _. apply Z.leb_gt in E. exact E.
Qed.

(** ** What [ConvSubsampling.__init__] builds *)

Lemma conv_init_cases (ml : Z -> Q) (s : string) (f fi fo cc : Z)
    (m : ConvSub.conv_subsampling) :
  ConvSub.init ml s f fi fo cc = Some m ->
  f mod 2 = 0 /\ ConvSub.int_log2 ml f = Some (ConvSub._sampling_num m) /\
  (0 < ConvSub._sampling_num m -> 0 <= cc) /\
  (exists d, round64 (inject_Z fi) = Fin d /\
     ConvSub.out_in_features m
     = cc * hd 0 (calc_length_t (Float32 [round32 d]) (ConvSub._padding m)
                    (ConvSub._kernel_size m) (ConvSub._stride m) (ConvSub._ceil_mode m)
                    (ConvSub._sampling_num m))) /\
  ConvSub.out_out_features m = fo /\
  ((s = "vggnet"%string /\ ConvSub._padding m = 0 /\ ConvSub._stride m = 2 /\
    ConvSub._kernel_size m = 2 /\ ConvSub._ceil_mode m = true /\
    ConvSub.conv m
    = ConvSub.vggnet_layers (Z.to_nat (ConvSub._sampling_num m)) 1 cc 2 2 0 true) \/
   (s = "striding"%string /\ ConvSub._padding m = 1 /\ ConvSub._stride m = 2 /\
    ConvSub._kernel_size m = 3 /\ ConvSub._ceil_mode m = false /\
    ConvSub.conv m
    = ConvSub.striding_layers (Z.to_nat (ConvSub._sampling_num m)) 1 cc 3 2 1)).
Proof.
  unfold ConvSub.init, ConvSub.finish.
  destruct (f mod 2 =? 0) eqn:Hm; simpl; [|discriminate].
  apply Z.eqb_eq in Hm.
  destruct (ConvSub.int_log2 ml f) as [n|] eqn:Hl; [|discriminate].
  assert (Hcc : (0 <? n) && (cc <? 0) = false -> 0 < n -> 0 <= cc).
  { intros E Hn. apply andb_false_iff in E. destruct E as [E|E].
    - apply Z.ltb_ge in E. lia.
    - apply Z.ltb_ge in E. exact E. }
  destruct (String.eqb s "vggnet") eqn:Hv.
  - apply String.eqb_eq in Hv.
    destruct ((0 <? n) && (cc <? 0)) eqn:Hc; [discriminate|].
    destruct (round64 (inject_Z fi)) as [d| |] eqn:Hd; try discriminate.
    match goal with |- context [if ?g then None else _] => destruct g end;
      [discriminate|].
    intros H; inversion H; subst; simpl.
    repeat split; try (now apply Hcc); try (exists d; split; reflexivity);
      try (left; repeat split; reflexivity); try (right; repeat split; reflexivity); auto.
  - destruct (String.eqb s "striding") eqn:Hs; [|discriminate].
    apply String.eqb_eq in Hs.
    destruct ((0 <? n) && (cc <? 0)) eqn:Hc; [discriminate|].
    destruct (round64 (inject_Z fi)) as [d| |] eqn:Hd; try discriminate.
    match goal with |- context [if ?g then None else _] => destruct g end;
      [discriminate|].
    intros H; inversion H; subst; simpl.
    repeat split; try (now apply Hcc); try (exists d; split; reflexivity);
      try (left; repeat split; reflexivity); try (right; repeat split; reflexivity); auto.
Qed.

Lemma conv_init_params (ml : Z -> Q) (s : string) (f fi fo cc : Z)
    (m : ConvSub.conv_subsampling) :
  ConvSub.init ml s f fi fo cc = Some m ->
  ConvSub._stride m = 2 /\
  ((conv_add_pad m = 1 * 2 - 3 /\ ConvSub._ceil_mode m = false) \/
   (conv_add_pad m = 0 * 2 - 2 /\ ConvSub._ceil_mode m = true)).
Proof.
  intros H. apply conv_init_cases in H. unfold conv_add_pad.
  destruct H as (_ & _ & _ & _ & _ & [(_ & -> & -> & -> & -> & _) | (_ & -> & -> & -> & -> & _)]);
    auto.
Qed.

Lemma conv_init_stride (ml : Z -> Q) (s : string) (f fi fo cc : Z)
    (m : ConvSub.conv_subsampling) :
  ConvSub.init ml s f fi fo cc = Some m ->
  ConvSub._stride m = 2 /\ - ConvSub._stride m <= conv_add_pad m.
Proof.
  intros H. destruct (conv_init_params _ _ _ _ _ _ _ H) as [-> [[-> _] | [-> _]]]; lia.
Qed.

(** Below [2^24] the float32 loop of a built [ConvSubsampling] is exact. *)
Lemma conv_step_exact (ml : Z -> Q) (s : string) (f fi fo cc : Z)
    (m : ConvSub.conv_subsampling) :
  ConvSub.init ml s f fi fo cc = Some m ->
  (forall l, 0 <= l <= 2 ^ 24 ->
     calc_step (conv_add_pad m) (ConvSub._stride m) (ConvSub._ceil_mode m) (fin_Z l)
     = fin_Z (zstep (conv_add_pad m) (ConvSub._stride m) (ConvSub._ceil_mode m) l)) /\
  (forall l, 0 <= l ->
     0 <= zstep (conv_add_pad m) (ConvSub._stride m) (ConvSub._ceil_mode m) l <= l).
Proof.
  intros H. destruct (conv_init_params _ _ _ _ _ _ _ H) as [-> [[-> ->] | [-> ->]]].
  - split; [exact striding_step_exact | exact zstep_striding_bounds].
  - split; [exact vggnet_step_exact | exact zstep_vggnet_bounds].
Qed.

Lemma conv_forward_lengths_zloop (ml : Z -> Q) (s : string) (f fi fo cc : Z)
    (m : ConvSub.conv_subsampling) (ls : list Z) :
  ConvSub.init ml s f fi fo cc = Some m ->
  Forall (fun l => 0 <= l <= 2 ^ 24) ls ->
  ConvSub.forward_lengths m ls
  = map (zloop (conv_add_pad m) (ConvSub._stride m) (ConvSub._ceil_mode m)
               (Z.to_nat (ConvSub._sampling_num m))) ls.
Proof.
  intros H Hls. destruct (conv_step_exact _ _ _ _ _ _ _ H) as [Hs Hb].
  unfold ConvSub.forward_lengths. unfold conv_add_pad in *.
  apply calc_length_exact; assumption.
Qed.

Lemma conv_out_features_exact (ml : Z -> Q) (s : string) (f fi fo cc : Z)
    (m : ConvSub.conv_subsampling) :
  ConvSub.init ml s f fi fo cc = Some m -> 0 <= fi <= 2 ^ 24 ->
  ConvSub.out_in_features m
  = cc * zloop (conv_add_pad m) (ConvSub._stride m) (ConvSub._ceil_mode m)
           (Z.to_nat (ConvSub._sampling_num m)) fi.
Proof.
  intros H Hfi. destruct (conv_step_exact _ _ _ _ _ _ _ H) as [Hs Hb].
  destruct (conv_init_cases _ _ _ _ _ _ _ H) as (_ & _ & _ & (d & Ed & Eo) & _).
  rewrite (round64_Z _ fi) in Ed by (reflexivity || lia). injection Ed as <-.
  change (round32 (inject_Z fi)) with (f32_of_Z fi) in Eo.
  rewrite f32_of_Z_small in Eo by lia.
  change [Fin (inject_Z fi)] with (map fin_Z [fi]) in Eo.
  unfold conv_add_pad in *.
  rewrite calc_length_t_exact in Eo by (try assumption; repeat constructor; lia).
  exact Eo.
Qed.

(** The convolution stack reduces the time axis exactly as the integer
    form of [calc_length]. *)
Lemma conv_stack_time (ml : Z -> Q) (s : string) (f fi fo cc : Z)
    (m : ConvSub.conv_subsampling) (b c t d b' c' t' d' : Z) :
  ConvSub.init ml s f fi fo cc = Some m ->
  apply_layers (ConvSub.conv m) (b, c, t, d) = Some (b', c', t', d') ->
  t' = zloop (conv_add_pad m) (ConvSub._stride m) (ConvSub._ceil_mode m)
             (Z.to_nat (ConvSub._sampling_num m)) t.
Proof.
  intros H Hl. apply conv_init_cases in H. unfold conv_add_pad.
  destruct H as (_ & _ & _ & _ & _ &
                 [(_ & -> & -> & -> & -> & Hc) | (_ & -> & -> & -> & -> & Hc)]);
    rewrite Hc in Hl.
  - now apply vggnet_layers_time in Hl.
  - now apply striding_layers_time in Hl.
Qed.

Lemma conv_forward_inv (cv : list (list (list Q)) -> list (list (list Q)))
    (ov : list Q -> list Q) (m : ConvSub.conv_subsampling) (x y : tensor3)
    (ls ls' : list Z) :
  ConvSub.forward cv ov m x ls = Some (y, ls') ->
  ls' = ConvSub.forward_lengths m ls /\
  exists b t d b' c f, dims x = (b, t, d) /\
    apply_layers (ConvSub.conv m) (b, 1, t, d) = Some (b', c, time_of y, f) /\
    dims y = (b', time_of y, ConvSub.out_out_features m).
Proof.
  unfold ConvSub.forward. destruct (dims x) as [[b t] d] eqn:Ex.
  destruct (apply_layers (ConvSub.conv m) (b, 1, t, d)) as [[[[b' c] t'] f]|] eqn:Ea;
    [|discriminate].
  destruct (b' * t' =? 0); [discriminate|].
  destruct (negb (c * f =? ConvSub.out_in_features m)); [discriminate|].
  intros H; inversion H; subst. split; [reflexivity|].
  exists b, t, d, b', c, f. unfold time_of; simpl. auto.
Qed.


Lemma conv_init_accepts (ml : Z -> Q) (s : string) (f fi fo cc n : Z) :
  (s = "vggnet"%string \/ s = "striding"%string) ->
  f mod 2 = 0 -> ConvSub.int_log2 ml f = Some n ->
  0 <= fi <= 2 ^ 24 -> 0 <= fo -> 0 <= cc ->
  exists m, ConvSub.init ml s f fi fo cc = Some m /\ ConvSub._sampling_num m = n.
Proof.
  intros Hs Hm Hl Hfi Hfo Hc. unfold ConvSub.init, ConvSub.finish.
  rewrite Hm. change (negb (0 =? 0)) with false. cbv iota. rewrite Hl.
  replace ((0 <? n) && (cc <? 0)) with false
    by (symmetry; apply andb_false_iff; right; apply Z.ltb_ge; lia).
  rewrite (round64_Z _ fi) by (reflexivity || lia).
  change (round32 (inject_Z fi)) with (f32_of_Z fi).
  rewrite f32_of_Z_small by lia.
  change [Fin (inject_Z fi)] with (map fin_Z [fi]).
  assert (Hf : Forall (fun l => 0 <= l <= 2 ^ 24) [fi]) by (repeat constructor; lia).
  destruct Hs as [-> | ->]; lazy beta iota delta [String.eqb Ascii.eqb Bool.eqb].
  - rewrite (calc_length_t_exact 0 2 2 true n [fi] vggnet_step_exact zstep_vggnet_bounds Hf).
    cbn [map hd].
    assert (Hz : 0 <= zloop (0 * 2 - 2) 2 true (Z.to_nat n) fi)
      by (apply zloop_nonneg; lia).
    match goal with |- context [if ?g then None else _] =>
      replace g with false by (symmetry; apply orb_false_iff; split; apply Z.ltb_ge; nia) end.
    eexists; split; reflexivity.
  - rewrite (calc_length_t_exact 1 3 2 false n [fi] striding_step_exact zstep_striding_bounds Hf).
    cbn [map hd].
    assert (Hz : 0 <= zloop (1 * 2 - 3) 2 false (Z.to_nat n) fi)
      by (apply zloop_nonneg; lia).
    match goal with |- context [if ?g then None else _] =>
      replace g with false by (symmetry; apply orb_false_iff; split; apply Z.ltb_ge; nia) end.
    eexists; split; reflexivity.
Qed.

(** Two small "striding" configurations, for any [math.log] with
    [math.log(2) <> 0] (and [math.log(4) = 2 * math.log(2)], which holds for
    the doubles CPython returns). *)
Lemma striding_2_init (ml : Z -> Q) :
  ~ (ml 2%Z == 0)%Q ->
  ConvSub.init ml "striding" 2 1 1 1
  = Some (ConvSub.mk_conv "striding" 1 1 2 3 false (ConvSub.striding_layers 1 1 1 3 2 1) 1 1).
Proof.
  intros H2. unfold ConvSub.init.
  rewrite (int_log2_ratio ml 2 1); [vm_compute; reflexivity | lia | exact H2 | | lia].
  change (inject_Z 1) with 1%Q. ring.
Qed.

Lemma striding_4_init (ml : Z -> Q) :
  ~ (ml 2%Z == 0)%Q -> (ml 4%Z == 2 * ml 2%Z)%Q ->
  ConvSub.init ml "striding" 4 80 320 256
  = Some (ConvSub.mk_conv "striding" 2 1 2 3 false
            (ConvSub.striding_layers 2 1 256 3 2 1) 5120 320).
Proof.
  intros H2 H4. unfold ConvSub.init.
  rewrite (int_log2_ratio ml 4 2); [vm_compute; reflexivity | lia | exact H2 | exact H4 | lia].
Qed.

(** ** ConvSubsampling claims *)

(** C1 (amended): for a [ConvSubsampling] built with a valid strategy,
    every successful [forward] returns [calc_length] of the input lengths
    with the construction-time padding, kernel, stride and rounding
    ("vggnet": ceiling, "striding": floor); for an input time size [T] of
    at most [2^24] (where the float32 loop of [calc_length] is exact), a
    valid length equal to [T] is mapped exactly to the output time size
    [T']. *)
Theorem conv_lengths_track_time (ml : Z -> Q) (s : string) (f feat_in feat_out cc : Z)
    (m : ConvSub.conv_subsampling)
    (cv : list (list (list Q)) -> list (list (list Q))) (ov : list Q -> list Q)
    (x y : tensor3) (ls ls' : list Z) :
  ConvSub.init ml s f feat_in feat_out cc = Some m ->
  ConvSub.forward cv ov m x ls = Some (y, ls') ->
  0 <= time_of x <= 2 ^ 24 ->
  ((s = "vggnet"%string /\ ConvSub._ceil_mode m = true) \/
   (s = "striding"%string /\ ConvSub._ceil_mode m = false)) /\
  ls' = calc_length ls (ConvSub._padding m) (ConvSub._kernel_size m)
          (ConvSub._stride m) (ConvSub._ceil_mode m) (ConvSub._sampling_num m) /\
  calc_length [time_of x] (ConvSub._padding m) (ConvSub._kernel_size m)
    (ConvSub._stride m) (ConvSub._ceil_mode m) (ConvSub._sampling_num m)
  = [time_of y].
Proof.
  intros Hi Hf Ht0.
  pose proof (conv_init_cases _ _ _ _ _ _ _ Hi) as Hc.
  apply conv_forward_inv in Hf.
  destruct Hf as [-> (b & t & d & b' & c & f' & Ex & Ea & Ey)].
  split; [|split; [reflexivity|]].
  - destruct Hc as (_ & _ & _ & _ & _ &
                    [(? & _ & _ & _ & ? & _) | (? & _ & _ & _ & ? & _)]); auto.
  - pose proof (conv_stack_time _ _ _ _ _ _ _ _ _ _ _ _ _ _ _ Hi Ea) as Ht.
    change (calc_length [time_of x] (ConvSub._padding m) (ConvSub._kernel_size m)
              (ConvSub._stride m) (ConvSub._ceil_mode m) (ConvSub._sampling_num m))
      with (ConvSub.forward_lengths m [time_of x]).
    rewrite (conv_forward_lengths_zloop _ _ _ _ _ _ _ _ Hi) by (repeat constructor; lia).
    simpl. unfold time_of at 1. rewrite Ex. rewrite Ht. reflexivity.
Qed.

Lemma conv_lengths_track_time_witness :
  exists m y ls',
    ConvSub.init sample_log "striding" 4 80 320 256 = Some m /\
    ConvSub.forward (fun v => v) (fun v => v) m main_spect [1600; 324; 1; 666]
      = Some (y, ls') /\
    0 <= time_of main_spect <= 2 ^ 24 /\
    calc_length [time_of main_spect] (ConvSub._padding m) (ConvSub._kernel_size m)
      (ConvSub._stride m) (ConvSub._ceil_mode m) (ConvSub._sampling_num m)
    = [time_of y].
Proof.
  eexists; eexists; eexists.
  assert (Hi : ConvSub.init sample_log "striding" 4 80 320 256 = Some
    (ConvSub.mk_conv "striding" 2 1 2 3 false
       (ConvSub.striding_layers 2 1 256 3 2 1) 5120 320)) by (vm_compute; reflexivity).
  assert (Hf : ConvSub.forward (fun v => v) (fun v => v)
    (ConvSub.mk_conv "striding" 2 1 2 3 false (ConvSub.striding_layers 2 1 256 3 2 1) 5120 320)
    main_spect [1600; 324; 1; 666]
    = Some (mk_tensor3 (4, 400, 320) [], [400; 81; 1; 167])) by (vm_compute; reflexivity).
  assert (Ht : 0 <= time_of main_spect <= 2 ^ 24) by (unfold time_of, main_spect; simpl; lia).
  split; [exact Hi|]. split; [exact Hf|]. split; [exact Ht|].
  exact (proj2 (proj2 (conv_lengths_track_time _ _ _ _ _ _ _ _ _ _ _ _ _ Hi Hf Ht))).
Defined.

(** C1, without the bound on [T], fails: "striding", factor 2, on
    [T = 16777217 = 2^24 + 1] frames, the convolution gives [T' = 8388609]
    frames, but the float32 loop of [calc_length] maps the length [T] to
    [8388608] ([T] is rounded to [2^24] by [.to(dtype=torch.float)]). *)
Lemma conv_lengths_float32_gap :
  exists m y ls',
    (forall ml : Z -> Q, ~ (ml 2%Z == 0)%Q -> ConvSub.init ml "striding" 2 1 1 1 = Some m) /\
    ConvSub.forward (fun v => v) (fun v => v) m (mk_tensor3 (1, 16777217, 1) []) [16777217]
      = Some (y, ls') /\
    time_of y = 8388609 /\ ls' = [8388608] /\
    calc_length [16777217] (ConvSub._padding m) (ConvSub._kernel_size m)
      (ConvSub._stride m) (ConvSub._ceil_mode m) (ConvSub._sampling_num m) = [8388608].
Proof.
  eexists; eexists; eexists. split; [exact striding_2_init|].
  split; [vm_compute; reflexivity|].
  split; [reflexivity|]. split; [reflexivity|]. vm_compute. reflexivity.
Qed.

(** C6: the [__main__] scenario: "striding", factor 4, feat_in 80,
    feat_out 320, conv_channels 256, input (4, 1600, 80) with lengths
    [1600, 324, 1, 666] gives an output of size (4, 400, 320) and lengths
    [400, 81, 1, 167], which are [calc_length] with padding 1, kernel 3,
    stride 2, floor rounding, repeated twice.  The construction holds for
    the doubles CPython's [math.log] returns, and for any [math.log] with
    [math.log(2) <> 0] and [math.log(4) = 2 * math.log(2)]. *)
Theorem main_scenario_striding_4 :
  exists m,
    ConvSub.init sample_log "striding" 4 80 320 256 = Some m /\
    (forall ml : Z -> Q, ~ (ml 2%Z == 0)%Q -> (ml 4%Z == 2 * ml 2%Z)%Q ->
       ConvSub.init ml "striding" 4 80 320 256 = Some m) /\
    (forall cv ov, exists vals,
       ConvSub.forward cv ov m (mk_tensor3 (4, 1600, 80) []) [1600; 324; 1; 666]
       = Some (mk_tensor3 (4, 400, 320) vals, [400; 81; 1; 167])) /\
    calc_length [1600; 324; 1; 666] 1 3 2 false 2 = [400; 81; 1; 167].
Proof.
  exists (ConvSub.mk_conv "striding" 2 1 2 3 false
            (ConvSub.striding_layers 2 1 256 3 2 1) 5120 320).
  split; [vm_compute; reflexivity|]. split; [exact striding_4_init|]. split.
  - intros cv ov. eexists. vm_compute. reflexivity.
  - vm_compute. reflexivity.
Qed.

(** ** StackingSubsampling *)

Lemma pad_size_bounds (F t : Z) :
  0 < F -> 1 <= Stacking.pad_size F t <= F.
Proof.
  intros HF. unfold Stacking.pad_size.
  pose proof (Z.mod_pos_bound t F HF). lia.
Qed.

Lemma pad_size_divisible (F t : Z) :
  0 < F -> t mod F = 0 -> Stacking.pad_size F t = F.
Proof. intros HF E. unfold Stacking.pad_size. lia. Qed.

Lemma stacking_forward_inv (pv : list Q -> list Q) (m : Stacking.stacking_subsampling)
    (x y : tensor3) (ls ls' : list Z) :
  0 < Stacking.subsampling_factor m ->
  Stacking.forward pv m x ls = Some (y, ls') ->
  let F := Stacking.subsampling_factor m in
  exists b t h, dims x = (b, t, h) /\
    let pad := Stacking.pad_size F t in
    dims y = (b, (t + pad) / F, Stacking.proj_out_features m) /\
    data y = map (map pv) (map (Stacking.group_frames (Z.to_nat F) (Z.to_nat ((t + pad) / F)))
                                (Stacking.pad_time pad h (data x))) /\
    ls' = map (fun l => (l + pad) / F) ls.
Proof.
  intros HF. unfold Stacking.forward. destruct (dims x) as [[b t] h] eqn:Ex.
  destruct (Stacking.subsampling_factor m =? 0) eqn:E0; [discriminate|].
  match goal with |- context [if ?g then None else _] => destruct g end; [discriminate|].
  match goal with |- context [if ?g then None else _] => destruct g end; [discriminate|].
  intros H; inversion H; subst; simpl. exists b, t, h. auto.
Qed.

(** C2 (code defect): a [StackingSubsampling] with factor 4 on an input of
    8 frames (4 divides 8) returns 3 output frames, one more than
    [ceil(8/4) = 2]: the padding adds a full block of 4 zero frames. *)
Theorem stacking_divisible_time_extra_frame :
  exists y ls',
    Stacking.forward (fun v => v) (Stacking.mk_stacking 4 8 5)
      (mk_tensor3 (1, 8, 2) []) [8] = Some (y, ls') /\
    dims y = (1, 3, 5) /\ time_of y <> (8 + 4 - 1) / 4.
Proof.
  eexists; eexists. split; [vm_compute; reflexivity|].
  split; vm_compute; [reflexivity|discriminate].
Qed.




(** ** Length bounds and monotonicity *)

(** C9 (amended): [calc_length] is monotone in its lengths whenever its
    results do not overflow the int32 cast: for a stride in [1, 2^63) and
    an int64 [padding * 2 - kernel_size], entrywise [a <= b] gives
    entrywise [calc_length a <= calc_length b], provided the values cast by
    [.to(dtype=torch.int)] are finite and within int32 for both inputs. *)
Theorem calc_length_monotone (p k s : Z) (c : bool) (n : Z) (ls1 ls2 : list Z) :
  0 < s < 2 ^ 63 -> - 2 ^ 63 <= p * 2 - k < 2 ^ 63 ->
  Forall2 Z.le ls1 ls2 ->
  fits_int32 (calc_loop (p * 2 - k) s c (Z.to_nat n) (Int64 ls1)) = true ->
  fits_int32 (calc_loop (p * 2 - k) s c (Z.to_nat n) (Int64 ls2)) = true ->
  Forall2 Z.le (calc_length ls1 p k s c n) (calc_length ls2 p k s c n).
Proof.
  intros Hs Hpad H H1 H2. unfold calc_length, calc_length_t. cbv zeta.
  destruct (Z.to_nat n) as [|n'].
  - cbn [calc_loop to_int fits_int32] in *.
    induction H as [|a b l1 l2 Hab _ IH]; cbn [map forallb] in *; constructor.
    + apply andb_true_iff in H1 as [Ha1 _]. apply andb_true_iff in H2 as [Hb2 _].
      rewrite !int64_to_int32_small by assumption. exact Hab.
    + apply andb_true_iff in H1 as [_ H1]. apply andb_true_iff in H2 as [_ H2]. auto.
  - rewrite !calc_loop_succ. rewrite calc_loop_succ in H1, H2. cbn [to_int to_float fits_int32] in *.
    induction H as [|a b l1 l2 Hab _ IH]; cbn [map forallb] in *; constructor.
    + apply andb_true_iff in H1 as [Ha1 _]. apply andb_true_iff in H2 as [Hb2 _].
      apply float_to_int32_mono; [|exact Ha1|exact Hb2].
      apply iter_step_mono; [exact Hs|exact Hpad|]. apply f32_of_Z_mono. exact Hab.
    + apply andb_true_iff in H1 as [_ H1]. apply andb_true_iff in H2 as [_ H2]. auto.
Qed.

Lemma calc_length_monotone_witness :
  (0 < 2 < 2 ^ 63 /\ - 2 ^ 63 <= 1 * 2 - 3 < 2 ^ 63 /\ Forall2 Z.le [0; 5; 7] [1; 5; 9] /\
   fits_int32 (calc_loop (1 * 2 - 3) 2 false (Z.to_nat 2) (Int64 [0; 5; 7])) = true /\
   fits_int32 (calc_loop (1 * 2 - 3) 2 false (Z.to_nat 2) (Int64 [1; 5; 9])) = true) /\
  Forall2 Z.le (calc_length [0; 5; 7] 1 3 2 false 2) (calc_length [1; 5; 9] 1 3 2 false 2).
Proof.
  assert (Hs : 0 < 2 < 2 ^ 63) by lia.
  assert (Hp : - 2 ^ 63 <= 1 * 2 - 3 < 2 ^ 63) by lia.
  assert (H : Forall2 Z.le [0; 5; 7] [1; 5; 9]) by (repeat constructor; lia).
  assert (H1 : fits_int32 (calc_loop (1 * 2 - 3) 2 false (Z.to_nat 2) (Int64 [0; 5; 7])) = true)
    by (vm_compute; reflexivity).
  assert (H2 : fits_int32 (calc_loop (1 * 2 - 3) 2 false (Z.to_nat 2) (Int64 [1; 5; 9])) = true)
    by (vm_compute; reflexivity).
  split; [tauto|].
  exact (calc_length_monotone 1 3 2 false 2 _ _ Hs Hp H H1 H2).
Defined.

(** C9, as the claim states it, fails: the int32 cast is not monotone.
    With no repetition the int64 lengths [2^31 - 1 <= 2^31] are wrapped to
    [2147483647] and [-2147483648]; with one "striding" repetition,
    [2^30 <= 2^32] give [2^29] and [INT_MIN] (the float [2^31] does not
    fit in int32). *)
Lemma calc_length_not_monotone :
  calc_length [2 ^ 31 - 1; 2 ^ 31] 0 0 1 false 0 = [2147483647; -2147483648] /\
  calc_length [2 ^ 30; 2 ^ 32] 1 3 2 false 1 = [536870912; -2147483648].
Proof. split; vm_compute; reflexivity. Qed.

Lemma forall_map_bound (g : Z -> Z) (ls : list Z) (t t' : Z) :
  (forall l, 0 <= l <= t -> 0 <= g l <= t') ->
  Forall (fun l => 0 <= l <= t) ls ->
  Forall (fun l => 0 <= l <= t') (map g ls).
Proof.
  intros Hg H. induction H; simpl; constructor; auto.
Qed.


(** C7 (amended): for [StackingSubsampling] (positive factor), a
    successful [forward] on lengths with [0 <= length[i] <= T] returns
    lengths with [0 <= updated_length[i] <= T'], [T'] the output time size;
    for a [ConvSubsampling] built by [__init__] the same holds when
    [T <= 2^24], where the float32 loop of [calc_length] is exact. *)
Theorem lengths_within_output_time :
  (forall (pv : list Q -> list Q) (m : Stacking.stacking_subsampling)
          (x y : tensor3) (ls ls' : list Z),
     0 < Stacking.subsampling_factor m ->
     Stacking.forward pv m x ls = Some (y, ls') ->
     Forall (fun l => 0 <= l <= time_of x) ls ->
     Forall (fun l => 0 <= l <= time_of y) ls') /\
  (forall (ml : Z -> Q) (s : string) (f feat_in feat_out cc : Z)
          (m : ConvSub.conv_subsampling)
          (cv : list (list (list Q)) -> list (list (list Q))) (ov : list Q -> list Q)
          (x y : tensor3) (ls ls' : list Z),
     ConvSub.init ml s f feat_in feat_out cc = Some m ->
     ConvSub.forward cv ov m x ls = Some (y, ls') ->
     time_of x <= 2 ^ 24 ->
     Forall (fun l => 0 <= l <= time_of x) ls ->
     Forall (fun l => 0 <= l <= time_of y) ls').
Proof.
  split.
  - intros pv m x y ls ls' HF Hf Hls.
    pose proof (stacking_forward_inv pv m x y ls ls' HF Hf) as H. simpl in H.
    destruct H as (b & t & h & Ex & Ey & _ & ->).
    unfold time_of in *. rewrite Ex in Hls. rewrite Ey.
    apply (forall_map_bound _ _ t); [|exact Hls].
    intros l Hl. pose proof (pad_size_bounds _ t HF). split.
    + apply Z.div_pos; lia.
    + apply Z.div_le_mono; lia.
  - intros ml s f fi fo cc m cv ov x y ls ls' Hi Hf Hx Hls.
    pose proof (conv_init_stride _ _ _ _ _ _ _ Hi) as [Hs Ha].
    pose proof (conv_forward_inv cv ov m x y ls ls' Hf)
      as [-> (b & t & d & b' & c & f' & Ex & Ea & _)].
    pose proof (conv_stack_time _ _ _ _ _ _ _ _ _ _ _ _ _ _ _ Hi Ea) as Ht.
    unfold time_of at 1 in Hls. unfold time_of in Hx. rewrite Ex in Hls, Hx.
    rewrite (conv_forward_lengths_zloop _ _ _ _ _ _ _ _ Hi)
      by (apply (Forall_impl _ (fun l (H : 0 <= l <= t) => conj (proj1 H) (Z.le_trans _ _ _ (proj2 H) Hx)) Hls)).
    rewrite Ht.
    apply (forall_map_bound _ _ t); [|exact Hls].
    intros l Hl. split.
    + apply zloop_nonneg; lia.
    + apply zloop_mono; lia.
Qed.

Lemma lengths_within_output_time_witness :
  Forall (fun l => 0 <= l <= 3) [3; 2] /\
  Forall (fun l => 0 <= l <= 400) [400; 81; 1; 167].
Proof.
  assert (Hs : Stacking.forward (fun v => v) (Stacking.mk_stacking 4 8 5)
                 (mk_tensor3 (1, 8, 2) []) [8; 5]
               = Some (mk_tensor3 (1, 3, 5) [], [3; 2])) by (vm_compute; reflexivity).
  assert (Hi : ConvSub.init sample_log "striding" 4 80 320 256 = Some
    (ConvSub.mk_conv "striding" 2 1 2 3 false
       (ConvSub.striding_layers 2 1 256 3 2 1) 5120 320)) by (vm_compute; reflexivity).
  assert (Hf : ConvSub.forward (fun v => v) (fun v => v)
    (ConvSub.mk_conv "striding" 2 1 2 3 false (ConvSub.striding_layers 2 1 256 3 2 1) 5120 320)
    main_spect [1600; 324; 1; 666]
    = Some (mk_tensor3 (4, 400, 320) [], [400; 81; 1; 167])) by (vm_compute; reflexivity).
  assert (HF : 0 < Stacking.subsampling_factor (Stacking.mk_stacking 4 8 5)) by (simpl; lia).
  assert (Hl1 : Forall (fun l => 0 <= l <= time_of (mk_tensor3 (1, 8, 2) [])) [8; 5])
    by (repeat apply Forall_cons; try apply Forall_nil; unfold time_of, main_spect; simpl; lia).
  assert (Hx : time_of main_spect <= 2 ^ 24) by (unfold time_of, main_spect; simpl; lia).
  assert (Hl2 : Forall (fun l => 0 <= l <= time_of main_spect) [1600; 324; 1; 666])
    by (repeat apply Forall_cons; try apply Forall_nil; unfold time_of, main_spect; simpl; lia).
  split.
  - exact (proj1 lengths_within_output_time _ _ _ _ _ _ HF Hs Hl1).
  - exact (proj2 lengths_within_output_time _ _ _ _ _ _ _ _ _ _ _ _ _ Hi Hf Hx Hl2).
Defined.

(** C7, for [ConvSubsampling] without the bound on [T], fails:
    "striding", factor 2, on [T = 16777219] frames with the valid length
    [T], the output has [T' = 8388610] frames but the returned length is
    [8388611 > T'] (float32 rounds [T] and [T - 1] up to [16777220]). *)
Lemma conv_lengths_exceed_output_time :
  exists m y ls',
    (forall ml : Z -> Q, ~ (ml 2%Z == 0)%Q -> ConvSub.init ml "striding" 2 1 1 1 = Some m) /\
    ConvSub.forward (fun v => v) (fun v => v) m (mk_tensor3 (1, 16777219, 1) []) [16777219]
      = Some (y, ls') /\
    time_of y = 8388610 /\ ls' = [8388611].
Proof.
  eexists; eexists; eexists. split; [exact striding_2_init|].
  split; [vm_compute; reflexivity|]. split; reflexivity.
Qed.

(** C10: the lengths returned by [ConvSubsampling.forward] depend only on
    the input lengths and the configuration: two inputs of the same size,
    whatever their entries, give the same outcome for the lengths. *)
Theorem conv_lengths_ignore_values
    (cv : list (list (list Q)) -> list (list (list Q))) (ov : list Q -> list Q)
    (m : ConvSub.conv_subsampling) (x1 x2 : tensor3) (ls : list Z) :
  dims x1 = dims x2 ->
  option_map snd (ConvSub.forward cv ov m x1 ls)
  = option_map snd (ConvSub.forward cv ov m x2 ls).
Proof.
  intros E. unfold ConvSub.forward. rewrite E.
  destruct (dims x2) as [[b t] d].
  destruct (apply_layers (ConvSub.conv m) (b, 1, t, d)) as [[[[b' c] t'] f]|]; [|reflexivity].
  destruct (b' * t' =? 0); [reflexivity|].
  destruct (negb (c * f =? ConvSub.out_in_features m)); reflexivity.
Qed.


Lemma conv_lengths_ignore_values_witness :
  exists m,
    ConvSub.init sample_log "striding" 4 80 320 256 = Some m /\
    dims (mk_tensor3 (1, 6, 80) [[[1%Q]]]) = dims (mk_tensor3 (1, 6, 80) [[[2%Q]]]) /\
    option_map snd (ConvSub.forward (fun v => v) (fun v => v) m
                      (mk_tensor3 (1, 6, 80) [[[1%Q]]]) [5])
    = option_map snd (ConvSub.forward (fun v => v) (fun v => v) m
                        (mk_tensor3 (1, 6, 80) [[[2%Q]]]) [5]).
Proof.
  eexists. split; [vm_compute; reflexivity|].
  assert (E : dims (mk_tensor3 (1, 6, 80) [[[1%Q]]]) = dims (mk_tensor3 (1, 6, 80) [[[2%Q]]]))
    by reflexivity.
  split; [exact E|]. exact (conv_lengths_ignore_values _ _ _ _ _ _ E).
Defined.

(** ** Construction errors *)

(** C8: [ConvSubsampling.__init__] with a strategy name other than
    "vggnet" and "striding" raises, whatever the other arguments and
    whatever [math.log] returns. *)
Theorem conv_init_unknown_strategy (ml : Z -> Q) (s : string) (f feat_in feat_out cc : Z) :
  s <> "vggnet"%string -> s <> "striding"%string ->
  ConvSub.init ml s f feat_in feat_out cc = None.
Proof.
  intros Hv Hs. unfold ConvSub.init.
  destruct (negb (f mod 2 =? 0)); [reflexivity|].
  destruct (ConvSub.int_log2 ml f); [|reflexivity].
  apply String.eqb_neq in Hv, Hs. rewrite Hv, Hs. reflexivity.
Qed.

Lemma conv_init_unknown_strategy_witness :
  ConvSub.init sample_log "unknown" 4 80 320 256 = None.
Proof.
  apply conv_init_unknown_strategy; discriminate.
Defined.

(** C3, as the claim states it, fails: the even non-powers of two 6 and 12
    are accepted whenever [int(math.log(f, 2))] does not raise, and with
    the doubles CPython's [math.log] returns it gives 2 and 3. *)
Lemma conv_init_accepts_factor_6 :
  (forall ml : Z -> Q, ConvSub.int_log2 ml 6 <> None ->
     ConvSub.init ml "striding" 6 80 320 256 <> None) /\
  (forall ml : Z -> Q, ConvSub.int_log2 ml 12 <> None ->
     ConvSub.init ml "vggnet" 12 80 320 256 <> None) /\
  ConvSub.int_log2 sample_log 6 = Some 2 /\ ConvSub.int_log2 sample_log 12 = Some 3.
Proof.
  split; [|split; [|split; vm_compute; reflexivity]].
  - intros ml H. destruct (ConvSub.int_log2 ml 6) as [n|] eqn:E; [|contradiction].
    destruct (conv_init_accepts ml "striding" 6 80 320 256 n) as (m & Hm & _);
      try (right; reflexivity); try reflexivity; try exact E; try lia.
    rewrite Hm. discriminate.
  - intros ml H. destruct (ConvSub.int_log2 ml 12) as [n|] eqn:E; [|contradiction].
    destruct (conv_init_accepts ml "vggnet" 12 80 320 256 n) as (m & Hm & _);
      try (left; reflexivity); try reflexivity; try exact E; try lia.
    rewrite Hm. discriminate.
Qed.

(** C3 (amended): for a valid strategy, [ConvSubsampling.__init__]
    rejects an odd subsampling factor (the [% 2] check), a non-positive one
    and any factor for which [int(math.log(factor, 2))] raises; every other
    even factor, a power of two or not, is accepted (with sizes in range)
    and builds [int(math.log(factor, 2))] reduction stages. *)
Theorem conv_init_factor_check (ml : Z -> Q) (s : string) (f feat_in feat_out cc : Z) :
  (s = "vggnet"%string \/ s = "striding"%string) ->
  ((f mod 2 <> 0 \/ f <= 0 \/ ConvSub.int_log2 ml f = None) ->
   ConvSub.init ml s f feat_in feat_out cc = None) /\
  (forall n, f mod 2 = 0 -> ConvSub.int_log2 ml f = Some n ->
   0 <= feat_in <= 2 ^ 24 -> 0 <= feat_out -> 0 <= cc ->
   exists m, ConvSub.init ml s f feat_in feat_out cc = Some m /\
             ConvSub._sampling_num m = n).
Proof.
  intros Hs. split.
  - intros Hf. unfold ConvSub.init.
    destruct (f mod 2 =? 0) eqn:Hm; cbn [negb]; [|reflexivity].
    destruct (ConvSub.int_log2 ml f) as [n|] eqn:Hl; [|reflexivity].
    exfalso. apply Z.eqb_eq in Hm. pose proof (int_log2_pos _ _ _ Hl).
    destruct Hf as [?|[?|?]]; [lia|lia|congruence].
  - intros n Hm Hl Hfi Hfo Hc. exact (conv_init_accepts _ _ _ _ _ _ _ Hs Hm Hl Hfi Hfo Hc).
Qed.

Lemma conv_init_factor_check_witness :
  ConvSub.init sample_log "striding" 3 80 320 256 = None /\
  exists m, ConvSub.init sample_log "striding" 6 80 320 256 = Some m /\
            ConvSub._sampling_num m = 2.
Proof.
  assert (Hs : "striding"%string = "vggnet"%string \/ "striding"%string = "striding"%string)
    by (right; reflexivity).
  split.
  - apply (proj1 (conv_init_factor_check sample_log _ 3 80 320 256 Hs)). left. discriminate.
  - apply (proj2 (conv_init_factor_check sample_log _ 6 80 320 256 Hs));
      first [reflexivity | vm_compute; reflexivity | lia].
Defined.

(** ** [calc_length] and the float formula *)

(** C5, as the claim states it, fails: with no repetition the lengths are
    not passed through floating point (16777217 stays 16777217, where the
    float32 formula gives 16777216), and the final cast is to int32, so a
    float result [2^31] becomes [INT_MIN]. *)
Lemma calc_length_int32_overflow :
  calc_length [16777217] 1 3 2 false 0 = [16777217] /\
  spec_calc_length [16777217] 1 3 2 false 0 = [Some 16777216] /\
  calc_length [2 ^ 32] 1 3 2 false 1 = [- 2 ^ 31] /\
  spec_calc_length [2 ^ 32] 1 3 2 false 1 = [Some (2 ^ 31)].
Proof. repeat split; vm_compute; reflexivity. Qed.

(** C5 (amended): for a repeat count [n >= 1], [calc_length] is the
    float32 formula [length <- round_mode((length + 2p - k) / s + 1)]
    applied [n] times followed by the int32 cast of [.to(dtype=torch.int)];
    so it equals the formula followed by a cast to integer whenever the
    results are finite and fit in int32.  For [n <= 0] it only casts the
    int64 lengths to int32. *)
Theorem calc_length_float_formula (ls : list Z) (p k s : Z) (c : bool) (n : Z) :
  (1 <= n ->
   calc_length ls p k s c n
   = map (fun l => float_to_int32
                     (Nat.iter (Z.to_nat n) (spec_length_formula p k s c) (f32_of_Z l))) ls) /\
  (1 <= n ->
   Forall (fun r => exists z, r = Some z /\ in_int32 z = true) (spec_calc_length ls p k s c n) ->
   map Some (calc_length ls p k s c n) = spec_calc_length ls p k s c n) /\
  (n <= 0 -> calc_length ls p k s c n = map int64_to_int32 ls).
Proof.
  assert (Hf : 1 <= n ->
    calc_length ls p k s c n
    = map (fun l => float_to_int32
                      (Nat.iter (Z.to_nat n) (spec_length_formula p k s c) (f32_of_Z l))) ls).
  { intros Hn. unfold calc_length, calc_length_t. cbv zeta.
    destruct (Z.to_nat n) as [|n'] eqn:En; [lia|].
    rewrite calc_loop_succ. cbn [to_int to_float]. rewrite !map_map.
    apply map_ext. intros l. f_equal. apply iter_ext. intros x.
    symmetry. apply spec_formula_calc_step. }
  split; [exact Hf|]. split.
  - intros Hn H. rewrite (Hf Hn). clear Hf. unfold spec_calc_length in *.
    induction ls as [|l ls IH]; [reflexivity|].
    cbn [map] in H. apply Forall_cons_iff in H as [(z & Ez & Hz) Hrs].
    cbn [map]. f_equal; [|apply IH; exact Hrs].
    rewrite Ez. f_equal. apply float_to_int32_fits; assumption.
  - intros Hn. unfold calc_length, calc_length_t. cbv zeta.
    replace (Z.to_nat n) with O by lia. reflexivity.
Qed.

Lemma calc_length_float_formula_witness :
  1 <= 2 /\
  Forall (fun r => exists z, r = Some z /\ in_int32 z = true)
    (spec_calc_length [1600; 324; 1; 666] 1 3 2 false 2) /\
  map Some (calc_length [1600; 324; 1; 666] 1 3 2 false 2)
  = spec_calc_length [1600; 324; 1; 666] 1 3 2 false 2.
Proof.
  assert (Hn : 1 <= 2) by lia.
  assert (E : spec_calc_length [1600; 324; 1; 666] 1 3 2 false 2
              = [Some 400; Some 81; Some 1; Some 167]) by (vm_compute; reflexivity).
  assert (H : Forall (fun r => exists z, r = Some z /\ in_int32 z = true)
                (spec_calc_length [1600; 324; 1; 666] 1 3 2 false 2)).
  { rewrite E. repeat constructor; eexists; split; reflexivity. }
  split; [exact Hn|]. split; [exact H|].
  exact (proj1 (proj2 (calc_length_float_formula [1600; 324; 1; 666] 1 3 2 false 2)) Hn H).
Defined.

(** * Further properties of the subsampling code *)

(** ** Closed forms of the length update *)

Lemma zstep_striding_ceil (l : Z) : zstep (1 * 2 - 3) 2 false l = ceil_div l 2.
Proof. unfold zstep, ceil_div. Z.div_mod_to_equations. lia. Qed.

Lemma zstep_vggnet_ceil (l : Z) : zstep (0 * 2 - 2) 2 true l = ceil_div l 2.
Proof. unfold zstep, ceil_div. do 3 f_equal. ring. Qed.

Lemma ceil_div_ceil_div (l a b : Z) :
  0 < a -> 0 < b -> ceil_div (ceil_div l a) b = ceil_div l (a * b).
Proof.
  intros Ha Hb. unfold ceil_div. rewrite Z.opp_involutive.
  rewrite Z.div_div by lia. reflexivity.
Qed.

Lemma zloop_halving (a s : Z) (c : bool) (n : nat) (l : Z) :
  (forall l, zstep a s c l = ceil_div l 2) ->
  zloop a s c n l = ceil_div l (2 ^ Z.of_nat n).
Proof.
  intros Hst. revert l. induction n as [|n IH]; intros l; simpl zloop.
  - unfold ceil_div. simpl. rewrite Z.div_1_r. lia.
  - rewrite IH, Hst, ceil_div_ceil_div by (try apply Z.pow_pos_nonneg; lia).
    f_equal. rewrite Nat2Z.inj_succ, Z.pow_succ_r by lia. ring.
Qed.

Lemma ceil_div_pos (l P : Z) : 0 < P -> 1 <= l -> 1 <= ceil_div l P.
Proof.
  intros HP Hl. unfold ceil_div.
  enough (- l / P < 0) by lia.
  apply Z.div_lt_upper_bound; lia.
Qed.

Lemma ceil_div_zero (P : Z) : 0 < P -> ceil_div 0 P = 0.
Proof. intros HP. unfold ceil_div. reflexivity. Qed.


(** Every built [ConvSubsampling] halves with ceiling at each stage. *)
Lemma conv_init_halving (ml : Z -> Q) (s : string) (f fi fo cc : Z)
    (m : ConvSub.conv_subsampling) :
  ConvSub.init ml s f fi fo cc = Some m ->
  forall l, zstep (conv_add_pad m) (ConvSub._stride m) (ConvSub._ceil_mode m) l = ceil_div l 2.
Proof.
  intros H l. apply conv_init_cases in H. unfold conv_add_pad.
  destruct H as (_ & _ & _ & _ & _ &
                 [(_ & -> & -> & -> & -> & _) | (_ & -> & -> & -> & -> & _)]).
  - apply zstep_vggnet_ceil.
  - apply zstep_striding_ceil.
Qed.

Lemma conv_factor_pos (m : ConvSub.conv_subsampling) : 0 < conv_factor m.
Proof. unfold conv_factor. apply Z.pow_pos_nonneg; lia. Qed.

Lemma conv_zloop_ceil (ml : Z -> Q) (s : string) (f fi fo cc : Z)
    (m : ConvSub.conv_subsampling) (l : Z) :
  ConvSub.init ml s f fi fo cc = Some m ->
  zloop (conv_add_pad m) (ConvSub._stride m) (ConvSub._ceil_mode m)
    (Z.to_nat (ConvSub._sampling_num m)) l = ceil_div l (conv_factor m).
Proof.
  intros H. rewrite (zloop_halving _ _ _ _ _ (conv_init_halving _ _ _ _ _ _ _ H)).
  reflexivity.
Qed.

Lemma conv_forward_lengths_ceil (ml : Z -> Q) (s : string) (f fi fo cc : Z)
    (m : ConvSub.conv_subsampling) (ls : list Z) :
  ConvSub.init ml s f fi fo cc = Some m ->
  Forall (fun l => 0 <= l <= 2 ^ 24) ls ->
  ConvSub.forward_lengths m ls = map (fun l => ceil_div l (conv_factor m)) ls.
Proof.
  intros H Hls. rewrite (conv_forward_lengths_zloop _ _ _ _ _ _ _ _ H Hls).
  apply map_ext. intros l. exact (conv_zloop_ceil _ _ _ _ _ _ _ l H).
Qed.

Lemma conv_forward_time_ceil (ml : Z -> Q) (s : string) (f fi fo cc : Z)
    (m : ConvSub.conv_subsampling) cv ov x y ls ls' :
  ConvSub.init ml s f fi fo cc = Some m ->
  ConvSub.forward cv ov m x ls = Some (y, ls') ->
  time_of y = ceil_div (time_of x) (conv_factor m).
Proof.
  intros H Hf. apply conv_forward_inv in Hf.
  destruct Hf as [_ (b & t & d & b' & c & f' & Ex & Ea & _)].
  rewrite (conv_stack_time _ _ _ _ _ _ _ _ _ _ _ _ _ _ _ H Ea).
  rewrite (conv_zloop_ceil _ _ _ _ _ _ _ t H).
  unfold time_of. rewrite Ex. reflexivity.
Qed.

(** ** When the convolution stack runs *)










(** ** ConvSubsampling: when [forward] succeeds, and its closed forms *)



(** For a built [ConvSubsampling], [forward]'s lengths in [[0, 2^24]] are
    [ceil(l / 2 ^ self._sampling_num)] entrywise, which is [ceil(l / f)]
    when [int(math.log(f, 2))] returns [k] for [f = 2^k]; a successful
    [forward] maps the time size [T] to [ceil(T / 2 ^ self._sampling_num)],
    whatever [T]. *)
Theorem conv_lengths_ceil_div (ml : Z -> Q) (s : string) (f fi fo cc : Z)
    (m : ConvSub.conv_subsampling) (ls : list Z) :
  ConvSub.init ml s f fi fo cc = Some m ->
  (Forall (fun l => 0 <= l <= 2 ^ 24) ls ->
   ConvSub.forward_lengths m ls = map (fun l => ceil_div l (conv_factor m)) ls) /\
  (forall k, 0 <= k -> f = 2 ^ k -> ConvSub.int_log2 ml f = Some k ->
   Forall (fun l => 0 <= l <= 2 ^ 24) ls ->
   ConvSub.forward_lengths m ls = map (fun l => ceil_div l f) ls) /\
  (forall cv ov x y ls',
     ConvSub.forward cv ov m x ls = Some (y, ls') ->
     time_of y = ceil_div (time_of x) (conv_factor m)).
Proof.
  intros H. split; [|split].
  - exact (conv_forward_lengths_ceil _ _ _ _ _ _ _ ls H).
  - intros k Hk Hf Hl Hls. rewrite (conv_forward_lengths_ceil _ _ _ _ _ _ _ ls H Hls).
    pose proof (conv_init_cases _ _ _ _ _ _ _ H) as (_ & Hn & _).
    rewrite Hl in Hn. injection Hn as Hn.
    unfold conv_factor. rewrite <- Hn, Z2Nat.id, <- Hf by exact Hk. reflexivity.
  - intros cv ov x y ls' Hf. exact (conv_forward_time_ceil _ _ _ _ _ _ _ _ _ _ _ _ _ H Hf).
Qed.

Lemma conv_lengths_ceil_div_witness :
  exists m, ConvSub.init sample_log "striding" 6 80 320 256 = Some m /\
    Forall (fun l => 0 <= l <= 2 ^ 24) [13; 0] /\
    ConvSub.forward_lengths m [13; 0] = map (fun l => ceil_div l (conv_factor m)) [13; 0].
Proof.
  destruct (ConvSub.init sample_log "striding" 6 80 320 256) as [m|] eqn:Hi;
    [|vm_compute in Hi; discriminate Hi].
  exists m. split; [reflexivity|].
  assert (Hls : Forall (fun l => 0 <= l <= 2 ^ 24) [13; 0]) by (repeat constructor; lia).
  split; [exact Hls|].
  exact (proj1 (conv_lengths_ceil_div _ _ _ _ _ _ _ [13; 0] Hi) Hls).
Defined.

(** The two strategies track lengths identically: for the same factor
    (and the same [math.log]), a "vggnet" and a "striding"
    [ConvSubsampling] have the same number of stages, return the same
    lengths for every length vector with entries in [[0, 2^24]], and on the
    same input their successful forwards have the same output time size. *)
Theorem conv_strategies_agree (ml : Z -> Q) (f fi1 fo1 cc1 fi2 fo2 cc2 : Z)
    (m1 m2 : ConvSub.conv_subsampling) :
  ConvSub.init ml "vggnet" f fi1 fo1 cc1 = Some m1 ->
  ConvSub.init ml "striding" f fi2 fo2 cc2 = Some m2 ->
  ConvSub._sampling_num m1 = ConvSub._sampling_num m2 /\
  (forall ls, Forall (fun l => 0 <= l <= 2 ^ 24) ls ->
     ConvSub.forward_lengths m1 ls = ConvSub.forward_lengths m2 ls) /\
  (forall cv1 ov1 cv2 ov2 x ls y1 y2 ls1 ls2,
     ConvSub.forward cv1 ov1 m1 x ls = Some (y1, ls1) ->
     ConvSub.forward cv2 ov2 m2 x ls = Some (y2, ls2) ->
     time_of y1 = time_of y2).
Proof.
  intros H1 H2.
  assert (Hn : ConvSub._sampling_num m1 = ConvSub._sampling_num m2).
  { pose proof (conv_init_cases _ _ _ _ _ _ _ H1) as (_ & Hn1 & _).
    pose proof (conv_init_cases _ _ _ _ _ _ _ H2) as (_ & Hn2 & _).
    rewrite Hn1 in Hn2. injection Hn2 as E. exact E. }
  assert (Hc : conv_factor m1 = conv_factor m2) by (unfold conv_factor; rewrite Hn; reflexivity).
  split; [exact Hn|]. split.
  - intros ls Hls. rewrite (conv_forward_lengths_ceil _ _ _ _ _ _ _ ls H1 Hls),
      (conv_forward_lengths_ceil _ _ _ _ _ _ _ ls H2 Hls), Hc. reflexivity.
  - intros cv1 ov1 cv2 ov2 x ls y1 y2 ls1 ls2 F1 F2.
    rewrite (conv_forward_time_ceil _ _ _ _ _ _ _ _ _ _ _ _ _ H1 F1).
    rewrite (conv_forward_time_ceil _ _ _ _ _ _ _ _ _ _ _ _ _ H2 F2), Hc.
    reflexivity.
Qed.

Lemma conv_strategies_agree_witness :
  exists m1 m2,
    ConvSub.init sample_log "vggnet" 4 80 320 256 = Some m1 /\
    ConvSub.init sample_log "striding" 4 80 320 256 = Some m2 /\
    ConvSub._sampling_num m1 = ConvSub._sampling_num m2 /\
    ConvSub.forward_lengths m1 [1600; 324; 1; 666]
    = ConvSub.forward_lengths m2 [1600; 324; 1; 666].
Proof.
  destruct (ConvSub.init sample_log "vggnet" 4 80 320 256) as [m1|] eqn:H1;
    [|vm_compute in H1; discriminate H1].
  destruct (ConvSub.init sample_log "striding" 4 80 320 256) as [m2|] eqn:H2;
    [|vm_compute in H2; discriminate H2].
  exists m1, m2. split; [reflexivity|]. split; [reflexivity|].
  pose proof (conv_strategies_agree _ _ _ _ _ _ _ _ _ _ H1 H2) as (Hn & Hl & _).
  split; [exact Hn|]. apply Hl. repeat constructor; lia.
Defined.

(** The projection [self.out] built by [__init__] with
    [feat_in <= 2^24] takes [conv_channels * ceil(feat_in / 2 ^
    self._sampling_num)] inputs and gives [feat_out] outputs. *)
Theorem conv_out_projection_size (ml : Z -> Q) (s : string) (f fi fo cc : Z)
    (m : ConvSub.conv_subsampling) :
  ConvSub.init ml s f fi fo cc = Some m -> 0 <= fi <= 2 ^ 24 ->
  ConvSub.out_in_features m = cc * ceil_div fi (conv_factor m) /\
  ConvSub.out_out_features m = fo.
Proof.
  intros H Hfi. pose proof (conv_init_cases _ _ _ _ _ _ _ H) as (_ & _ & _ & _ & Hfo & _).
  rewrite (conv_out_features_exact _ _ _ _ _ _ _ H Hfi).
  rewrite (conv_zloop_ceil _ _ _ _ _ _ _ fi H). auto.
Qed.

Lemma conv_out_projection_size_witness :
  exists m, ConvSub.init sample_log "vggnet" 8 80 144 64 = Some m /\ 0 <= 80 <= 2 ^ 24 /\
    ConvSub.out_in_features m = 64 * ceil_div 80 (conv_factor m) /\
    ConvSub.out_out_features m = 144.
Proof.
  destruct (ConvSub.init sample_log "vggnet" 8 80 144 64) as [m|] eqn:Hi;
    [|vm_compute in Hi; discriminate Hi].
  exists m. split; [reflexivity|].
  assert (Hfi : 0 <= 80 <= 2 ^ 24) by lia.
  split; [exact Hfi|]. exact (conv_out_projection_size _ _ _ _ _ _ _ Hi Hfi).
Defined.

(** [ConvSubsampling.forward] keeps empty sequences empty and non-empty
    sequences non-empty for lengths in [[0, 2^24]]: length 0 stays 0 and a
    length [>= 1] stays [>= 1]. *)
Theorem conv_lengths_keep_emptiness (ml : Z -> Q) (s : string) (f fi fo cc : Z)
    (m : ConvSub.conv_subsampling) (ls : list Z) :
  ConvSub.init ml s f fi fo cc = Some m ->
  Forall (fun l => 0 <= l <= 2 ^ 24) ls ->
  Forall2 (fun l l' => (l = 0 -> l' = 0) /\ (1 <= l -> 1 <= l'))
    ls (ConvSub.forward_lengths m ls).
Proof.
  intros H Hls. rewrite (conv_forward_lengths_ceil _ _ _ _ _ _ _ ls H Hls).
  pose proof (conv_factor_pos m) as HP. clear Hls.
  induction ls as [|l ls IH]; simpl; constructor; auto.
  split.
  - intros ->. now apply ceil_div_zero.
  - intros Hl. now apply ceil_div_pos.
Qed.

Lemma conv_lengths_keep_emptiness_witness :
  exists m, ConvSub.init sample_log "striding" 8 80 320 256 = Some m /\
    Forall (fun l => 0 <= l <= 2 ^ 24) [0; 1; 9] /\
    Forall2 (fun l l' => (l = 0 -> l' = 0) /\ (1 <= l -> 1 <= l'))
      [0; 1; 9] (ConvSub.forward_lengths m [0; 1; 9]).
Proof.
  destruct (ConvSub.init sample_log "striding" 8 80 320 256) as [m|] eqn:Hi;
    [|vm_compute in Hi; discriminate Hi].
  exists m. split; [reflexivity|].
  assert (Hls : Forall (fun l => 0 <= l <= 2 ^ 24) [0; 1; 9]) by (repeat constructor; lia).
  split; [exact Hls|]. exact (conv_lengths_keep_emptiness _ _ _ _ _ _ _ _ Hi Hls).
Defined.

(** ** StackingSubsampling: sizes, edges and frames *)

Lemma stacking_padded_div (F t : Z) :
  0 < F -> (t + Stacking.pad_size F t) / F = t / F + 1.
Proof.
  intros HF. unfold Stacking.pad_size.
  replace (t + (F - t mod F)) with ((t / F + 1) * F).
  - rewrite Z.div_mul; lia.
  - pose proof (Z.div_mod t F ltac:(lia)). lia.
Qed.

(** A [StackingSubsampling] with factor [F > 0] outputs [T // F + 1] time
    steps for [T] input steps; this equals [ceil(T / F)] exactly when [F]
    does not divide [T]. *)
Theorem stacking_output_time (pv : list Q -> list Q)
    (m : Stacking.stacking_subsampling) (x y : tensor3) (ls ls' : list Z) :
  0 < Stacking.subsampling_factor m ->
  Stacking.forward pv m x ls = Some (y, ls') ->
  time_of y = time_of x / Stacking.subsampling_factor m + 1 /\
  (time_of x mod Stacking.subsampling_factor m <> 0 ->
   time_of y = ceil_div (time_of x) (Stacking.subsampling_factor m)) /\
  (time_of x mod Stacking.subsampling_factor m = 0 ->
   time_of y = ceil_div (time_of x) (Stacking.subsampling_factor m) + 1).
Proof.
  intros HF Hf. pose proof (stacking_forward_inv pv m x y ls ls' HF Hf) as H.
  simpl in H. destruct H as (b & t & h & Ex & Ey & _ & _).
  unfold time_of. rewrite Ex, Ey. rewrite stacking_padded_div by exact HF.
  set (F := Stacking.subsampling_factor m) in *. unfold ceil_div.
  split; [reflexivity|]. split; intros E; Z.div_mod_to_equations; nia.
Qed.

Lemma stacking_output_time_witness :
  0 < Stacking.subsampling_factor (Stacking.mk_stacking 4 8 5) /\
  Stacking.forward (fun v => v) (Stacking.mk_stacking 4 8 5) (mk_tensor3 (1, 9, 2) []) [9]
    = Some (mk_tensor3 (1, 3, 5) [], [3]) /\
  3 = 9 / 4 + 1 /\ (9 mod 4 <> 0 -> 3 = ceil_div 9 4) /\ (9 mod 4 = 0 -> 3 = ceil_div 9 4 + 1).
Proof.
  assert (HF : 0 < Stacking.subsampling_factor (Stacking.mk_stacking 4 8 5)) by (simpl; lia).
  assert (Hf : Stacking.forward (fun v => v) (Stacking.mk_stacking 4 8 5)
                 (mk_tensor3 (1, 9, 2) []) [9]
               = Some (mk_tensor3 (1, 3, 5) [], [3])) by (vm_compute; reflexivity).
  split; [exact HF|]. split; [exact Hf|].
  exact (stacking_output_time _ _ _ _ _ _ HF Hf).
Defined.

(** Length edges of [StackingSubsampling.forward] ([F > 0]): a full-length
    item ([length = T]) gets exactly the output time size, and an empty item
    ([length = 0]) gets length 1 when [F] divides [T] and 0 otherwise. *)
Theorem stacking_length_edges (pv : list Q -> list Q)
    (m : Stacking.stacking_subsampling) (x y : tensor3) (ls ls' : list Z) :
  0 < Stacking.subsampling_factor m ->
  Stacking.forward pv m x ls = Some (y, ls') ->
  Forall2 (fun l l' =>
             (l = time_of x -> l' = time_of y) /\
             (l = 0 -> l' = if time_of x mod Stacking.subsampling_factor m =? 0
                            then 1 else 0))
    ls ls'.
Proof.
  intros HF Hf. pose proof (stacking_forward_inv pv m x y ls ls' HF Hf) as H.
  simpl in H. destruct H as (b & t & h & Ex & Ey & _ & ->).
  unfold time_of. rewrite Ex, Ey.
  set (F := Stacking.subsampling_factor m) in *.
  pose proof (pad_size_bounds F t HF) as Hp. clear Hf.
  induction ls as [|l ls IH]; simpl; constructor; auto.
  split; [intros ->; reflexivity|]. intros ->. simpl.
  destruct (t mod F =? 0) eqn:E.
  - apply Z.eqb_eq in E. rewrite (pad_size_divisible F t HF E). apply Z.div_same. lia.
  - apply Z.eqb_neq in E. apply Z.div_small. unfold Stacking.pad_size in *.
    pose proof (Z.mod_pos_bound t F HF). lia.
Qed.

Lemma stacking_length_edges_witness :
  0 < Stacking.subsampling_factor (Stacking.mk_stacking 4 8 5) /\
  Stacking.forward (fun v => v) (Stacking.mk_stacking 4 8 5) (mk_tensor3 (1, 8, 2) []) [8; 0]
    = Some (mk_tensor3 (1, 3, 5) [], [3; 1]) /\
  Forall2 (fun l l' => (l = 8 -> l' = 3) /\ (l = 0 -> l' = if 8 mod 4 =? 0 then 1 else 0))
    [8; 0] [3; 1].
Proof.
  assert (HF : 0 < Stacking.subsampling_factor (Stacking.mk_stacking 4 8 5)) by (simpl; lia).
  assert (Hf : Stacking.forward (fun v => v) (Stacking.mk_stacking 4 8 5)
                 (mk_tensor3 (1, 8, 2) []) [8; 0]
               = Some (mk_tensor3 (1, 3, 5) [], [3; 1])) by (vm_compute; reflexivity).
  split; [exact HF|]. split; [exact Hf|].
  exact (stacking_length_edges _ _ _ _ _ _ HF Hf).
Defined.

(** A [StackingSubsampling] built with factor [F > 0] and [feat_in], on an
    input of size (B, T, H) with [T, H >= 0], returns (does not raise)
    exactly when [H = feat_in]. *)
Theorem stacking_forward_succeeds_iff (pv : list Q -> list Q) (F fi fo : Z)
    (m : Stacking.stacking_subsampling) (x : tensor3) (ls : list Z) (b t h : Z) :
  0 < F -> Stacking.init F fi fo = Some m ->
  dims x = (b, t, h) -> 0 <= t -> 0 <= h ->
  (Stacking.forward pv m x ls <> None <-> h = fi).
Proof.
  intros HF Hi Ex Ht Hh. unfold Stacking.init in Hi.
  destruct ((F * fi <? 0) || (fo <? 0)); [discriminate|]. inversion Hi; subst m. clear Hi.
  unfold Stacking.forward. simpl. rewrite Ex.
  replace (F =? 0) with false by (symmetry; apply Z.eqb_neq; lia).
  rewrite stacking_padded_div by exact HF.
  pose proof (pad_size_bounds F t HF).
  assert (0 <= t / F) by (apply Z.div_pos; lia).
  replace ((t + Stacking.pad_size F t <? 0) || (t / F + 1 <? 0) || (h * F <? 0)) with false
    by (symmetry; rewrite !Bool.orb_false_iff, !Z.ltb_ge; nia).
  destruct (h * F =? F * fi) eqn:E; simpl.
  - apply Z.eqb_eq in E. split; [intros _; nia | discriminate].
  - apply Z.eqb_neq in E. split; [congruence | intros ->; lia].
Qed.

Lemma stacking_forward_succeeds_iff_witness :
  exists m, Stacking.init 4 2 5 = Some m /\
    (Stacking.forward (fun v => v) m (mk_tensor3 (1, 8, 3) []) [8] <> None <-> 3 = 2).
Proof.
  destruct (Stacking.init 4 2 5) as [m|] eqn:Hi; [|discriminate Hi].
  exists m. split; [reflexivity|].
  exact (stacking_forward_succeeds_iff (fun v => v) 4 2 5 m (mk_tensor3 (1, 8, 3) []) [8] 1 8 3
           ltac:(lia) Hi eq_refl ltac:(lia) ltac:(lia)).
Defined.

Lemma length_concat_uniform (h : nat) (l : list (list Q)) :
  Forall (fun fr => List.length fr = h) l -> List.length (List.concat l) = (List.length l * h)%nat.
Proof.
  intros H. induction H as [|fr l Hfr _ IH]; simpl; [reflexivity|].
  rewrite List.length_app, IH, Hfr. reflexivity.
Qed.

Lemma group_frames_spec (F n h : nat) (frames : list (list Q)) :
  List.length frames = (F * n)%nat ->
  Forall (fun fr => List.length fr = h) frames ->
  List.length (Stacking.group_frames F n frames) = n /\
  Forall (fun g => List.length g = (F * h)%nat) (Stacking.group_frames F n frames) /\
  List.concat (Stacking.group_frames F n frames) = List.concat frames.
Proof.
  revert frames. induction n as [|n IH]; intros frames Hl Hw; simpl.
  - assert (frames = []) as -> by (apply length_zero_iff_nil; lia).
    repeat split; constructor.
  - assert (Hs : List.length (skipn F frames) = (F * n)%nat) by (rewrite length_skipn; lia).
    assert (Hf : List.length (firstn F frames) = F) by (rewrite length_firstn; lia).
    destruct (IH (skipn F frames) Hs) as (IH1 & IH2 & IH3).
    { rewrite <- (firstn_skipn F frames) in Hw. apply Forall_app in Hw. tauto. }
    repeat split.
    + simpl. rewrite IH1. reflexivity.
    + constructor; [|exact IH2].
      rewrite (length_concat_uniform h); [rewrite Hf; lia|].
      rewrite <- (firstn_skipn F frames) in Hw. apply Forall_app in Hw. tauto.
    + rewrite IH3, <- concat_app, firstn_skipn. reflexivity.
Qed.

Lemma concat_repeat_repeat (h n : nat) :
  List.concat (repeat (repeat 0%Q h) n) = repeat 0%Q (n * h).
Proof.
  induction n as [|n IH]; simpl; [reflexivity|].
  rewrite IH, repeat_app. reflexivity.
Qed.

Lemma Forall2_map_r {A B : Type} (P : A -> Prop) (R : A -> B -> Prop) (f : A -> B)
    (l : list A) :
  (forall a, P a -> R a (f a)) -> Forall P l -> Forall2 R l (map f l).
Proof. intros Hf H. induction H; simpl; constructor; auto. Qed.

Lemma stacking_padded_exact (F t : Z) :
  0 < F -> t + Stacking.pad_size F t = F * ((t + Stacking.pad_size F t) / F).
Proof.
  intros HF. rewrite stacking_padded_div by exact HF. unfold Stacking.pad_size.
  pose proof (Z.div_mod t F ltac:(lia)). lia.
Qed.

(** [StackingSubsampling.forward] on well-formed data (every item [t]
    frames of width [h]): each output item has [time_of y] frames of width
    [h * F], and its frames laid end to end are the input item's frames
    laid end to end followed by the [pad_size * h] zeros of the padding;
    [proj_out] is then applied frame by frame. *)
Theorem stacking_frames_round_trip (pv : list Q -> list Q)
    (m : Stacking.stacking_subsampling) (x y : tensor3) (ls ls' : list Z) (b t h : Z) :
  0 < Stacking.subsampling_factor m -> 0 <= t -> 0 <= h ->
  dims x = (b, t, h) ->
  Forall (fun item => List.length item = Z.to_nat t /\
                      Forall (fun fr => List.length fr = Z.to_nat h) item) (data x) ->
  Stacking.forward pv m x ls = Some (y, ls') ->
  let F := Stacking.subsampling_factor m in
  exists ys, data y = map (map pv) ys /\
    Forall2 (fun item g =>
               List.length g = Z.to_nat (time_of y) /\
               Forall (fun fr => List.length fr = Z.to_nat (h * F)) g /\
               List.concat g = List.concat item
                                 ++ repeat 0%Q (Z.to_nat (Stacking.pad_size F t * h)))
            (data x) ys.
Proof.
  intros HF Ht Hh Ex Hwf Hfw F.
  destruct (stacking_forward_inv pv m x y ls ls' HF Hfw) as (b' & t' & h' & Ex' & Ey & Ed & _).
  rewrite Ex in Ex'. injection Ex' as <- <- <-. fold F in Ey, Ed |- *.
  set (pad := Stacking.pad_size F t) in *.
  set (n := (t + pad) / F) in *.
  assert (Hpad : 1 <= pad <= F) by (apply pad_size_bounds; exact HF).
  assert (Hex : t + pad = F * n) by (apply stacking_padded_exact; exact HF).
  assert (Hn : 0 <= n) by nia.
  exists (map (Stacking.group_frames (Z.to_nat F) (Z.to_nat n))
              (Stacking.pad_time pad h (data x))).
  split; [exact Ed|].
  unfold Stacking.pad_time. rewrite map_map.
  refine (Forall2_map_r _ _ _ (data x) _ Hwf).
  intros item [Hl Hw].
  assert (Hlen : List.length (item ++ repeat (repeat 0%Q (Z.to_nat h)) (Z.to_nat pad))
                 = (Z.to_nat F * Z.to_nat n)%nat).
  { rewrite List.length_app, repeat_length, Hl, <- Z2Nat.inj_mul, <- Z2Nat.inj_add by lia.
    f_equal. exact Hex. }
  assert (Hwid : Forall (fun fr => List.length fr = Z.to_nat h)
                        (item ++ repeat (repeat 0%Q (Z.to_nat h)) (Z.to_nat pad))).
  { apply Forall_app; split; [exact Hw|].
    apply Forall_forall. intros fr Hin. apply repeat_spec in Hin. subst fr.
    apply repeat_length. }
  destruct (group_frames_spec _ _ _ _ Hlen Hwid) as (G1 & G2 & G3).
  split; [|split].
  - rewrite G1. unfold time_of. rewrite Ey. reflexivity.
  - rewrite Z2Nat.inj_mul, Nat.mul_comm by lia. exact G2.
  - rewrite G3, concat_app, concat_repeat_repeat, Z2Nat.inj_mul by lia. reflexivity.
Qed.

Lemma stacking_frames_round_trip_witness :
  exists y ls' ys,
    Stacking.forward (fun v => v) (Stacking.mk_stacking 2 2 2)
      (mk_tensor3 (1, 3, 1) [[[1%Q]; [2%Q]; [3%Q]]]) [3] = Some (y, ls') /\
    data y = map (map (fun v => v)) ys /\
    Forall2 (fun item g =>
               List.length g = Z.to_nat (time_of y) /\
               Forall (fun fr => List.length fr = Z.to_nat (1 * 2)) g /\
               List.concat g = List.concat item
                                 ++ repeat 0%Q (Z.to_nat (Stacking.pad_size 2 3 * 1)))
            [[[1%Q]; [2%Q]; [3%Q]]] ys.
Proof.
  destruct (Stacking.forward (fun v => v) (Stacking.mk_stacking 2 2 2)
              (mk_tensor3 (1, 3, 1) [[[1%Q]; [2%Q]; [3%Q]]]) [3]) as [[y ls']|] eqn:Hf;
    [|discriminate Hf].
  assert (H1 : 0 < Stacking.subsampling_factor (Stacking.mk_stacking 2 2 2)) by (simpl; lia).
  assert (H2 : Forall (fun item => List.length item = Z.to_nat 3 /\
                 Forall (fun fr => List.length fr = Z.to_nat 1) item)
                 (data (mk_tensor3 (1, 3, 1) [[[1%Q]; [2%Q]; [3%Q]]])))
    by (simpl; repeat constructor).
  destruct (stacking_frames_round_trip (fun v => v) (Stacking.mk_stacking 2 2 2)
              (mk_tensor3 (1, 3, 1) [[[1%Q]; [2%Q]; [3%Q]]]) y [3] ls' 1 3 1
              H1 ltac:(lia) ltac:(lia) eq_refl H2 Hf) as [ys [E1 E2]].
  exists y, ls', ys. split; [reflexivity|]. split; [exact E1|exact E2].
Defined.
